(** * multithread: first-answer-wins postal code lookup (main.go)

    A shallow embedding of [main.go].  The three functions of the program,
    [fetchFromBrasilAPI], [fetchFromViaCep] and [handleCEP], are translated
    statement by statement.  The Go standard library they call is modelled
    next to them, one module per package ([utf8], [strconv], [strings],
    [errors], [json], [io], [http]): what the network answers is an input
    of the model, what the library computes from bytes is a function.
    The two goroutines, the buffered channel and the cancellable context
    of [handleCEP] are a labelled transition system ([Race]) whose
    interleavings are the executions of one request. *)

From Stdlib Require Import String Ascii List ZArith NArith Lia Bool.
From stdpp Require Import base strings gmap list.
Import ListNotations.

Set Warnings "-register-all".

Local Open Scope Z_scope.

(** ** Go values shared by the packages *)

(** The dynamic error values that occur in the program.  [urlError] is the
    [*url.Error] that [http.Client.Do] returns; it is the only error here
    with an [Unwrap] method. *)
Inductive error : Type :=
| deadlineExceededError
| canceledError
| errorString (s : string)
| urlError (Op URL : string) (Err : error).

Definition error_eq_dec (a b : error) : {a = b} + {a <> b}.
Proof. decide equality; apply string_dec. Defined.

Definition dquote : ascii := "034"%char.

Definition backslash : ascii := "092"%char.

Definition newline : string := String "010"%char "".

Definition code (c : ascii) : N := N_of_ascii c.

Definition in_range (lo hi : N) (c : ascii) : bool :=
  ((lo <=? code c) && (code c <=? hi))%N.

(** ** unicode/utf8 *)

Module utf8.

(** [EncodeRune] for a code point that is no surrogate and not above
    U+10FFFF: its bytes, last byte first. *)
Definition encode_rev (cp : N) : list ascii :=
  let byte (n : N) := ascii_of_N n in
  let cont (n : N) := byte (128 + n mod 64)%N in
  if (cp <? 128)%N then [byte cp]
  else if (cp <? 2048)%N then [cont cp; byte (192 + cp / 64)%N]
  else if (cp <? 65536)%N then
    [cont cp; cont (cp / 64)%N; byte (224 + cp / 4096)%N]
  else [cont cp; cont (cp / 64)%N; cont (cp / 4096)%N;
        byte (240 + cp / 262144)%N].

(** U+FFFD, [RuneError]. *)
Definition RuneError : N := 65533.

(** The size of the encoding that [DecodeRune] finds at the head of [s],
    from the first byte and the range it allows for the second: an ASCII
    byte has size 1; 0 stands for the answer [(RuneError, 1)] to bytes
    that start no well-formed encoding (a stray continuation byte, an
    overlong form, a surrogate, a value above U+10FFFF, a sequence cut
    short). *)
Definition size (s : string) : nat :=
  match s with
  | EmptyString => 0%nat
  | String p0 rest =>
      let continues (c : ascii) := in_range 128 191 c in
      if (code p0 <? 128)%N then 1%nat
      else if (code p0 <? 194)%N then 0%nat
      else if (code p0 <? 224)%N then
        match rest with
        | String b1 _ => if continues b1 then 2%nat else 0%nat
        | _ => 0%nat
        end
      else if (code p0 <? 240)%N then
        let lo := if (code p0 =? 224)%N then 160%N else 128%N in
        let hi := if (code p0 =? 237)%N then 159%N else 191%N in
        match rest with
        | String b1 (String b2 _) =>
            if in_range lo hi b1 && continues b2 then 3%nat else 0%nat
        | _ => 0%nat
        end
      else if (code p0 <? 245)%N then
        let lo := if (code p0 =? 240)%N then 144%N else 128%N in
        let hi := if (code p0 =? 244)%N then 143%N else 191%N in
        match rest with
        | String b1 (String b2 (String b3 _)) =>
            if in_range lo hi b1 && continues b2 && continues b3
            then 4%nat else 0%nat
        | _ => 0%nat
        end
      else 0%nat
  end.

(** The loop [for each rune of s: append the rune] of the decoder and of
    the encoder of [encoding/json]: a well-formed encoding is copied, and
    every byte that starts none becomes U+FFFD.  [pending] counts the
    bytes of the current encoding that are still to be copied. *)
Fixpoint replace_from (pending : nat) (s : string) : string :=
  match s with
  | EmptyString => EmptyString
  | String c rest =>
      match pending with
      | S k => String c (replace_from k rest)
      | O =>
          match size s with
          | S k => String c (replace_from k rest)
          | O =>
              string_of_list_ascii (rev (encode_rev RuneError)) +:+
              replace_from 0 rest
          end
      end
  end.

Definition replace_ill_formed (s : string) : string := replace_from 0 s.

End utf8.

(** ** strconv *)

Module strconv.

Definition hex_lower (n : N) : ascii :=
  if (n <? 10)%N then ascii_of_N (48 + n) else ascii_of_N (87 + n).

Definition hex2 (n : N) : string :=
  String (hex_lower (n / 16)) (String (hex_lower (n mod 16)) "").

(** [appendEscapedRune] for a rune below U+0100 given by its number, with
    the quote character [q]: the quote and the backslash get a backslash,
    printable runes stand for themselves ([IsPrint]: U+0020 to U+007E and
    U+00A1 to U+00FF without U+00AD), the others are escaped. *)
Definition escaped (q : ascii) (r : N) : string :=
  let bs (s : string) := String backslash s in
  if ((r =? code q) || (r =? 92))%N then bs (String (ascii_of_N r) "")
  else if ((32 <=? r) && (r <=? 126))%N then String (ascii_of_N r) ""
  else if ((161 <=? r) && (r <=? 255) && negb (r =? 173))%N then
    string_of_list_ascii (rev (utf8.encode_rev r))
  else if (r =? 7)%N then bs "a"
  else if (r =? 8)%N then bs "b"
  else if (r =? 12)%N then bs "f"
  else if (r =? 10)%N then bs "n"
  else if (r =? 13)%N then bs "r"
  else if (r =? 9)%N then bs "t"
  else if (r =? 11)%N then bs "v"
  else if ((r <? 32) || (r =? 127))%N then bs ("x" +:+ hex2 r)
  else bs ("u00" +:+ hex2 r).

(** What is left to do with the bytes of the encoding just met. *)
Inductive pending : Type :=
| Fresh
| Copy (n : nat)
| Drop (n : nat).

(** The body of [Quote]: ASCII and the runes up to U+00FF as [escaped]
    has them, a byte that starts no well-formed encoding as [\x] and its
    two hex digits.  Every rune above U+00FF is copied: the tables of
    [IsPrint] for them are not modelled. *)
Fixpoint quote_from (p : pending) (s : string) : string :=
  match s with
  | EmptyString => EmptyString
  | String c rest =>
      match p with
      | Copy (S k) => String c (quote_from (Copy k) rest)
      | Drop (S k) => quote_from (Drop k) rest
      | _ =>
          match utf8.size s with
          | O =>
              String backslash ("x" +:+ hex2 (code c)) +:+ quote_from Fresh rest
          | 1%nat => escaped dquote (code c) +:+ quote_from Fresh rest
          | 2%nat =>
              match rest with
              | String b1 _ =>
                  if (code c <? 196)%N then
                    escaped dquote ((code c - 192) * 64 + (code b1 - 128))%N +:+
                    quote_from (Drop 1) rest
                  else String c (quote_from (Copy 1) rest)
              | EmptyString => EmptyString
              end
          | S k => String c (quote_from (Copy k) rest)
          end
      end
  end.

(** [strconv.Quote]. *)
Definition Quote (s : string) : string :=
  String dquote (quote_from Fresh s +:+ String dquote "").

End strconv.

(** The [Error()] method. *)
Fixpoint Error (e : error) : string :=
  match e with
  | deadlineExceededError => "context deadline exceeded"
  | canceledError => "context canceled"
  | errorString s => s
  | urlError op url err =>
      op +:+ " " +:+ strconv.Quote url +:+ ": " +:+ Error err
  end.

Module context.
Definition DeadlineExceeded : error := deadlineExceededError.
Definition Canceled : error := canceledError.

(** A context made by [WithTimeout]: the time budget in nanoseconds. *)
Record Context : Type := { Deadline : Z }.

Definition WithTimeout (timeout : Z) : Context := {| Deadline := timeout |}.
End context.

Module time.
Definition Second : Z := 1000000000.
End time.

Module errors.
(** [errors.Is]: [target] is found along the [Unwrap] chain. *)
Fixpoint Is (err target : error) : bool :=
  if error_eq_dec err target then true
  else match err with
       | urlError _ _ inner => Is inner target
       | _ => false
       end.
End errors.

Module fmt.
(** [fmt.Errorf(prefix + "%v", err)]: the verb is [%v], not [%w], so the
    result carries the text of [err] and does not wrap it. *)
Definition Errorf_v (prefix : string) (err : error) : error :=
  errorString (prefix +:+ Error err).

(** [fmt.Errorf(prefix + "%s", s)]. *)
Definition Errorf_s (prefix : string) (s : string) : error :=
  errorString (prefix +:+ s).
End fmt.

Module strings.
(** [strings.Split(s, sep)] for a separator of one byte. *)
Fixpoint Split (s : string) (sep : ascii) : list string :=
  match s with
  | EmptyString => [EmptyString]
  | String c rest =>
      if Ascii.eqb c sep then EmptyString :: Split rest sep
      else match Split rest sep with
           | h :: t => String c h :: t
           | [] => [String c EmptyString]
           end
  end.
End strings.

(** ** The address shapes and the channel message (lines 14-36) *)

Record AddressBrasil : Type := {
  b_Cep : string;
  b_State : string;
  b_City : string;
  b_Neighborhood : string;
  b_Street : string;
  b_Service : string
}.

Record AddressViaCep : Type := {
  v_Cep : string;
  v_Uf : string;
  v_Localidade : string;
  v_Bairro : string;
  v_Logradouro : string;
  v_Service : string
}.

(** The zero values [AddressBrasil{}] and [AddressViaCep{}]. *)
Definition AddressBrasil_zero : AddressBrasil :=
  {| b_Cep := ""; b_State := ""; b_City := ""; b_Neighborhood := "";
     b_Street := ""; b_Service := "" |}.

Definition AddressViaCep_zero : AddressViaCep :=
  {| v_Cep := ""; v_Uf := ""; v_Localidade := ""; v_Bairro := "";
     v_Logradouro := ""; v_Service := "" |}.

(** The dynamic value of the [interface{}] field [Data]. *)
Inductive any : Type :=
| anyNil
| anyAddressViaCep (a : AddressViaCep)
| anyAddressBrasil (a : AddressBrasil)
| anyOther (repr : string).

Record resultadoAPI : Type := {
  Origem : string;
  Data : any;
  Err : option error
}.

(** ** encoding/json

    [Unmarshal] scans the whole input first ([checkValid]) and then
    stores the value.  The scanner is the state machine of [scanner.go],
    one transition for each input byte, with the same states, the same
    stack of open arrays and objects and the same error texts; here it
    also keeps the values it has read, so that one pass yields the syntax
    tree of the text or the [*json.SyntaxError]. *)
Module json.

Inductive value : Type :=
| Null
| Bool (b : bool)
| Number (literal : string)
| Str (s : string)
| Array (items : list value)
| Object (members : list (string * value)).

(** *** Characters *)

Definition isSpace (c : ascii) : bool :=
  ((code c =? 32) || (code c =? 9) || (code c =? 13) || (code c =? 10))%N.

Definition is_digit (c : ascii) : bool := in_range 48 57 c.

Definition is_byte (c d : ascii) : bool := Ascii.eqb c d.

Definition hex_digit (c : ascii) : option N :=
  if is_digit c then Some (code c - 48)%N
  else if in_range 97 102 c then Some (code c - 87)%N
  else if in_range 65 70 c then Some (code c - 55)%N
  else None.

Definition is_hex (c : ascii) : bool :=
  match hex_digit c with Some _ => true | None => false end.

Definition text (acc : list ascii) : string :=
  string_of_list_ascii (rev acc).

(** *** [unquote]: the text of a string literal, given without its
    quotes, one transition for each of its bytes *)

Definition replacement_rev : list ascii := utf8.encode_rev utf8.RuneError.

Definition is_high_surrogate (cp : N) : bool :=
  ((55296 <=? cp) && (cp <? 56320))%N.
Definition is_low_surrogate (cp : N) : bool :=
  ((56320 <=? cp) && (cp <? 57344))%N.

(** Where [unquote] stands: in plain text, after a backslash, in the four
    hex digits of [\u], and the same three places when the escape before
    was the first half of a surrogate pair. *)
Inductive unquote_state : Type :=
| UText (acc : list ascii)
| UEsc (acc : list ascii)
| UHex (acc : list ascii) (n : nat) (v : N)
| USur (acc : list ascii) (hi : N)
| USurEsc (acc : list ascii) (hi : N)
| USurHex (acc : list ascii) (hi : N) (n : nat) (v : N).

Definition unquote_text (acc : list ascii) (c : ascii) : unquote_state :=
  if is_byte c backslash then UEsc acc else UText (c :: acc).

Definition unquote_esc (acc : list ascii) (c : ascii) : unquote_state :=
  let put (n : N) := UText (ascii_of_N n :: acc) in
  if is_byte c "b" then put 8%N
  else if is_byte c "f" then put 12%N
  else if is_byte c "n" then put 10%N
  else if is_byte c "r" then put 13%N
  else if is_byte c "t" then put 9%N
  else if is_byte c "u" then UHex acc 0 0%N
  else UText (c :: acc).

(** A [\uXXXX] escape has been read in full. *)
Definition unquote_rune (acc : list ascii) (cp : N) : unquote_state :=
  if is_high_surrogate cp then USur acc cp
  else if is_low_surrogate cp then UText (replacement_rev ++ acc)
  else UText (utf8.encode_rev cp ++ acc).

Definition unquote_step (st : unquote_state) (c : ascii) : unquote_state :=
  match st with
  | UText acc => unquote_text acc c
  | UEsc acc => unquote_esc acc c
  | UHex acc n v =>
      let v' := (v * 16 + default 0 (hex_digit c))%N in
      if (n =? 3)%nat then unquote_rune acc v' else UHex acc (S n) v'
  | USur acc hi =>
      if is_byte c backslash then USurEsc acc hi
      else unquote_text (replacement_rev ++ acc) c
  | USurEsc acc hi =>
      if is_byte c "u" then USurHex acc hi 0 0%N
      else unquote_esc (replacement_rev ++ acc) c
  | USurHex acc hi n v =>
      let v' := (v * 16 + default 0 (hex_digit c))%N in
      if (n =? 3)%nat then
        if is_low_surrogate v' then
          let cp := (65536 + (hi - 55296) * 1024 + (v' - 56320))%N in
          UText (utf8.encode_rev cp ++ acc)
        else unquote_rune (replacement_rev ++ acc) v'
      else USurHex acc hi (S n) v'
  end.

Definition unquote_end (st : unquote_state) : list ascii :=
  match st with
  | UText acc | UEsc acc | UHex acc _ _ => acc
  | USur acc _ | USurEsc acc _ | USurHex acc _ _ _ => replacement_rev ++ acc
  end.

(** The escapes are replaced first and the bytes above 127 are looked at
    afterwards.  Go does both in one loop over the literal; the result is
    the same, because what an escape stands for is a whole well-formed
    encoding and does not begin with a continuation byte, so that it
    neither completes nor is completed by the bytes around it. *)
Definition unquote (literal : string) : string :=
  utf8.replace_ill_formed
    (text (unquote_end
             (fold_left unquote_step (list_ascii_of_string literal) (UText [])))).

(** *** The scanner *)

(** [s.parseState]: the open arrays and objects, innermost first, each
    with what has been read of it, last member first.  In an object the
    key is kept from the end of its literal to the end of its value. *)
Inductive frame : Type :=
| parseObjectKey (members : list (string * value)) (key : option string)
| parseObjectValue (members : list (string * value)) (key : option string)
| parseArrayValue (items : list value).

(** [s.step]: the state functions of [scanner.go]. *)
Inductive state : Type :=
| BeginValueOrEmpty | BeginValue | BeginStringOrEmpty | BeginString
| EndValue | EndTop
| InString | InStringEsc
| InStringEscU | InStringEscU1 | InStringEscU12 | InStringEscU123
| Neg | Int1 | Int0 | Dot | Dot0 | Exp | ESign | Exp0
| LitT | LitTr | LitTru
| LitF | LitFa | LitFal | LitFals
| LitN | LitNu | LitNul.

Record scanner : Type := {
  step : state;
  parseState : list frame;
  literal : list ascii;
  top : option value
}.

(** [scan.reset()]. *)
Definition reset : scanner :=
  {| step := BeginValue; parseState := []; literal := []; top := None |}.

Definition goto (st : state) (s : scanner) : scanner :=
  {| step := st; parseState := parseState s; literal := literal s;
     top := top s |}.

Definition with_parseState (ps : list frame) (s : scanner) : scanner :=
  {| step := step s; parseState := ps; literal := literal s; top := top s |}.

(** The first byte of a literal, and one more byte of it. *)
Definition begin (st : state) (bytes : list ascii) (s : scanner) : scanner :=
  {| step := st; parseState := parseState s; literal := bytes; top := top s |}.

Definition more (st : state) (c : ascii) (s : scanner) : scanner :=
  begin st (c :: literal s) s.

(** [quoteChar]. *)
Definition quoteChar (c : ascii) : string :=
  let apostrophe := "'"%char in
  let quote (s : string) := String apostrophe (s +:+ String apostrophe "") in
  if is_byte c apostrophe then quote (String backslash (String apostrophe ""))
  else if is_byte c dquote then quote (String dquote "")
  else quote (strconv.escaped dquote (code c)).

(** [s.error(c, context)]: the [*json.SyntaxError]. *)
Definition error_at (c : ascii) (context : string) : error :=
  errorString ("invalid character " +:+ quoteChar c +:+ " " +:+ context).

Definition maxNestingDepth : N := 10000.

(** A value is complete: it is the value of the whole text, or it goes to
    the innermost open array or object, as a key where a key is due. *)
Definition deliver (v : value) (s : scanner) : scanner :=
  match parseState s with
  | [] =>
      {| step := step s; parseState := []; literal := literal s;
         top := Some v |}
  | parseArrayValue items :: ps =>
      with_parseState (parseArrayValue (v :: items) :: ps) s
  | parseObjectKey ms _ :: ps =>
      match v with
      | Str k => with_parseState (parseObjectKey ms (Some k) :: ps) s
      | _ => s
      end
  | parseObjectValue ms (Some k) :: ps =>
      with_parseState (parseObjectValue ((k, v) :: ms) None :: ps) s
  | parseObjectValue _ None :: _ => s
  end.

Definition pushParseState (c : ascii) (newParseState : frame)
    (successState : state) (s : scanner) : scanner + error :=
  let ps := newParseState :: parseState s in
  if (N.of_nat (length ps) <=? maxNestingDepth)%N then
    inl (goto successState (with_parseState ps s))
  else inr (error_at c "exceeded max depth").

(** [popParseState], with the value of the array or object that ends. *)
Definition popParseState (v : value) (ps : list frame) (s : scanner)
  : scanner :=
  let s := deliver v (with_parseState ps s) in
  match ps with
  | [] => goto EndTop s
  | _ :: _ => goto EndValue s
  end.

Definition stateEndTop (s : scanner) (c : ascii) : scanner + error :=
  if isSpace c then inl s else inr (error_at c "after top-level value").

Definition stateEndValue (s : scanner) (c : ascii) : scanner + error :=
  match parseState s with
  | [] => stateEndTop (goto EndTop s) c
  | frame :: ps =>
      if isSpace c then inl (goto EndValue s)
      else
        match frame with
        | parseObjectKey ms key =>
            if is_byte c ":" then
              inl (goto BeginValue
                     (with_parseState (parseObjectValue ms key :: ps) s))
            else inr (error_at c "after object key")
        | parseObjectValue ms _ =>
            if is_byte c "," then
              inl (goto BeginString
                     (with_parseState (parseObjectKey ms None :: ps) s))
            else if is_byte c "}" then inl (popParseState (Object (rev ms)) ps s)
            else inr (error_at c "after object key:value pair")
        | parseArrayValue items =>
            if is_byte c "," then inl (goto BeginValue s)
            else if is_byte c "]" then inl (popParseState (Array (rev items)) ps s)
            else inr (error_at c "after array element")
        end
  end.

Definition stateBeginValue (s : scanner) (c : ascii) : scanner + error :=
  if isSpace c then inl s
  else if is_byte c "{" then
    pushParseState c (parseObjectKey [] None) BeginStringOrEmpty s
  else if is_byte c "[" then pushParseState c (parseArrayValue []) BeginValueOrEmpty s
  else if is_byte c dquote then inl (begin InString [] s)
  else if is_byte c "-" then inl (begin Neg [c] s)
  else if is_byte c "0" then inl (begin Int0 [c] s)
  else if is_byte c "t" then inl (goto LitT s)
  else if is_byte c "f" then inl (goto LitF s)
  else if is_byte c "n" then inl (goto LitN s)
  else if in_range 49 57 c then inl (begin Int1 [c] s)
  else inr (error_at c "looking for beginning of value").

Definition stateBeginValueOrEmpty (s : scanner) (c : ascii)
  : scanner + error :=
  if isSpace c then inl s
  else if is_byte c "]" then stateEndValue s c
  else stateBeginValue s c.

Definition stateBeginString (s : scanner) (c : ascii) : scanner + error :=
  if isSpace c then inl s
  else if is_byte c dquote then inl (begin InString [] s)
  else inr (error_at c "looking for beginning of object key string").

Definition stateBeginStringOrEmpty (s : scanner) (c : ascii)
  : scanner + error :=
  if isSpace c then inl s
  else if is_byte c "}" then
    match parseState s with
    | parseObjectKey ms _ :: ps =>
        stateEndValue (with_parseState (parseObjectValue ms None :: ps) s) c
    | _ => stateEndValue s c
    end
  else stateBeginString s c.

Definition stateInString (s : scanner) (c : ascii) : scanner + error :=
  if is_byte c dquote then
    inl (goto EndValue (deliver (Str (unquote (text (literal s)))) s))
  else if is_byte c backslash then inl (more InStringEsc c s)
  else if (code c <? 32)%N then inr (error_at c "in string literal")
  else inl (more InString c s).

Definition stateInStringEsc (s : scanner) (c : ascii) : scanner + error :=
  if is_byte c "b" || is_byte c "f" || is_byte c "n" || is_byte c "r" || is_byte c "t"
     || is_byte c backslash || is_byte c "/" || is_byte c dquote
  then inl (more InString c s)
  else if is_byte c "u" then inl (more InStringEscU c s)
  else inr (error_at c "in string escape code").

Definition stateInStringEscU (next : state) (s : scanner) (c : ascii)
  : scanner + error :=
  if is_hex c then inl (more next c s)
  else inr (error_at c
              ("in " +:+ String backslash "u hexadecimal character escape")).

(** The end of a number is the first byte after it. *)
Definition endNumber (s : scanner) (c : ascii) : scanner + error :=
  stateEndValue (deliver (Number (text (literal s))) s) c.

Definition state0 (s : scanner) (c : ascii) : scanner + error :=
  if is_byte c "." then inl (more Dot c s)
  else if is_byte c "e" || is_byte c "E" then inl (more Exp c s)
  else endNumber s c.

Definition state1 (s : scanner) (c : ascii) : scanner + error :=
  if is_digit c then inl (more Int1 c s) else state0 s c.

Definition stateNeg (s : scanner) (c : ascii) : scanner + error :=
  if is_byte c "0" then inl (more Int0 c s)
  else if in_range 49 57 c then inl (more Int1 c s)
  else inr (error_at c "in numeric literal").

Definition stateDot (s : scanner) (c : ascii) : scanner + error :=
  if is_digit c then inl (more Dot0 c s)
  else inr (error_at c "after decimal point in numeric literal").

Definition stateDot0 (s : scanner) (c : ascii) : scanner + error :=
  if is_digit c then inl (more Dot0 c s)
  else if is_byte c "e" || is_byte c "E" then inl (more Exp c s)
  else endNumber s c.

Definition stateESign (s : scanner) (c : ascii) : scanner + error :=
  if is_digit c then inl (more Exp0 c s)
  else inr (error_at c "in exponent of numeric literal").

Definition stateE (s : scanner) (c : ascii) : scanner + error :=
  if is_byte c "+" || is_byte c "-" then inl (more ESign c s) else stateESign s c.

Definition stateE0 (s : scanner) (c : ascii) : scanner + error :=
  if is_digit c then inl (more Exp0 c s) else endNumber s c.

(** One letter of [true], [false] or [null]: [want] is due, and [last]
    is the value when it was the last letter. *)
Definition stateLiteral (name : string) (want : ascii) (next : state)
    (last : option value) (s : scanner) (c : ascii) : scanner + error :=
  if is_byte c want then
    match last with
    | Some v => inl (goto EndValue (deliver v s))
    | None => inl (goto next s)
    end
  else
    inr (error_at c ("in literal " +:+ name +:+ " (expecting '" +:+
                     String want "')")).

(** [s.step(s, c)]. *)
Definition scan_step (s : scanner) (c : ascii) : scanner + error :=
  match step s with
  | BeginValueOrEmpty => stateBeginValueOrEmpty s c
  | BeginValue => stateBeginValue s c
  | BeginStringOrEmpty => stateBeginStringOrEmpty s c
  | BeginString => stateBeginString s c
  | EndValue => stateEndValue s c
  | EndTop => stateEndTop s c
  | InString => stateInString s c
  | InStringEsc => stateInStringEsc s c
  | InStringEscU => stateInStringEscU InStringEscU1 s c
  | InStringEscU1 => stateInStringEscU InStringEscU12 s c
  | InStringEscU12 => stateInStringEscU InStringEscU123 s c
  | InStringEscU123 => stateInStringEscU InString s c
  | Neg => stateNeg s c
  | Int1 => state1 s c
  | Int0 => state0 s c
  | Dot => stateDot s c
  | Dot0 => stateDot0 s c
  | Exp => stateE s c
  | ESign => stateESign s c
  | Exp0 => stateE0 s c
  | LitT => stateLiteral "true" "r" LitTr None s c
  | LitTr => stateLiteral "true" "u" LitTru None s c
  | LitTru => stateLiteral "true" "e" EndValue (Some (Bool true)) s c
  | LitF => stateLiteral "false" "a" LitFa None s c
  | LitFa => stateLiteral "false" "l" LitFal None s c
  | LitFal => stateLiteral "false" "s" LitFals None s c
  | LitFals => stateLiteral "false" "e" EndValue (Some (Bool false)) s c
  | LitN => stateLiteral "null" "u" LitNu None s c
  | LitNu => stateLiteral "null" "l" LitNul None s c
  | LitNul => stateLiteral "null" "l" EndValue (Some Null) s c
  end.

(** [s.eof()]: a text that has not reached its end is given one space,
    which ends a number; if that is not the end either, the text is cut
    short. *)
Definition eof (s : scanner) : value + error :=
  let ended (s : scanner) : option value :=
    match step s with
    | EndTop => top s
    | _ => None
    end in
  match ended s with
  | Some v => inl v
  | None =>
      match scan_step s " " with
      | inr err => inr err
      | inl s' =>
          match ended s' with
          | Some v => inl v
          | None => inr (errorString "unexpected end of JSON input")
          end
      end
  end.

Fixpoint scan_from (s : scanner) (data : string) : value + error :=
  match data with
  | String c rest =>
      match scan_step s c with
      | inl s' => scan_from s' rest
      | inr err => inr err
      end
  | EmptyString => eof s
  end.

(** The value of a JSON text, or the error of [checkValid]. *)
Definition scan (data : string) : value + error := scan_from reset data.

Definition checkValid (data : string) : option error :=
  match scan data with
  | inl _ => None
  | inr err => Some err
  end.

(** The syntax tree of a JSON text that is valid. *)
Definition parse (data : string) : option value :=
  match scan data with
  | inl v => Some v
  | inr _ => None
  end.

(** *** Storing an object into a struct whose fields are all strings *)

(** One exported field: its name in the [json] tag and its setter.  A field
    tagged [json:"-"] has no entry. *)
Record field (T : Type) : Type := {
  tag : string;
  store : string -> T -> T
}.
Arguments tag {T}.
Arguments store {T}.

Definition upper (c : ascii) : ascii :=
  if in_range 97 122 c then ascii_of_N (code c - 32) else c.

(** [foldName]: two names are the same up to case when their folds are
    equal.  An ASCII letter folds to its capital, and so do the two runes
    outside ASCII that are letters [s] and [k] in another form: U+017F,
    the long s (bytes 197 191), and U+212A, the Kelvin sign (bytes 226 132
    170).  Every other rune is left as it is: Go folds it to a rune
    outside ASCII, so it is never equal to a letter of the names of this
    program, which are ASCII. *)
Fixpoint foldName (s : string) : string :=
  match s with
  | EmptyString => EmptyString
  | String c rest =>
      let one_byte := String (upper c) (foldName rest) in
      match rest with
      | String c1 rest1 =>
          if (code c =? 197)%N && (code c1 =? 191)%N then
            String "S" (foldName rest1)
          else
            match rest1 with
            | String c2 rest2 =>
                if (code c =? 226)%N && (code c1 =? 132)%N && (code c2 =? 170)%N
                then String "K" (foldName rest2)
                else one_byte
            | EmptyString => one_byte
            end
      | EmptyString => one_byte
      end
  end.

(** The field an object key selects: an exact match first, then a match
    up to case. *)
Definition find_field {T : Type} (fields : list (field T)) (key : string)
  : option (field T) :=
  match List.find (fun f => String.eqb (tag f) key) fields with
  | Some f => Some f
  | None =>
      List.find (fun f => String.eqb (foldName (tag f)) (foldName key)) fields
  end.

Definition kind (v : value) : string :=
  match v with
  | Null => "null"
  | Bool _ => "bool"
  | Number _ => "number"
  | Str _ => "string"
  | Array _ => "array"
  | Object _ => "object"
  end.

(** The text of an [*json.UnmarshalTypeError] for a struct field. *)
Definition field_type_error (struct name : string) (v : value) : error :=
  errorString ("json: cannot unmarshal " +:+ kind v +:+
               " into Go struct field " +:+ struct +:+ "." +:+ name +:+
               " of type string").

(** The text of an [*json.UnmarshalTypeError] for the whole value. *)
Definition value_type_error (type : string) (v : value) : error :=
  errorString ("json: cannot unmarshal " +:+ kind v +:+
               " into Go value of type " +:+ type).

(** [saveError]: the first error is kept and decoding goes on. *)
Definition saveError (saved : option error) (err : error) : option error :=
  match saved with
  | Some _ => saved
  | None => Some err
  end.

Fixpoint object {T : Type} (struct : string) (fields : list (field T))
    (members : list (string * value)) (dst : T) (saved : option error)
  : T * option error :=
  match members with
  | [] => (dst, saved)
  | (key, v) :: rest =>
      match find_field fields key with
      | None => object struct fields rest dst saved
      | Some f =>
          match v with
          | Str s => object struct fields rest (store f s dst) saved
          | Null => object struct fields rest dst saved
          | _ =>
              object struct fields rest dst
                (saveError saved (field_type_error struct (tag f) v))
          end
      end
  end.

(** The value of a valid text is stored: an object member by member,
    [null] not at all, and nothing else fits a struct. *)
Definition store_value {T : Type} (package struct : string)
    (fields : list (field T)) (v : value) (dst : T) : T * option error :=
  match v with
  | Object members => object struct fields members dst None
  | Null => (dst, None)
  | _ => (dst, Some (value_type_error (package +:+ "." +:+ struct) v))
  end.

(** [json.Unmarshal(data, &dst)] for such a struct. *)
Definition Unmarshal {T : Type} (package struct : string)
    (fields : list (field T)) (data : string) (dst : T) : T * option error :=
  match scan data with
  | inr err => (dst, Some err)
  | inl v => store_value package struct fields v dst
  end.

End json.

(** The struct tags of lines 15-20 and 24-29; [Service] is tagged
    [json:"-"] and is neither read nor written. *)
Definition AddressBrasil_fields : list (json.field AddressBrasil) :=
  [ {| json.tag := "cep";
       json.store := fun s a =>
         {| b_Cep := s; b_State := b_State a; b_City := b_City a;
            b_Neighborhood := b_Neighborhood a; b_Street := b_Street a;
            b_Service := b_Service a |} |};
    {| json.tag := "state";
       json.store := fun s a =>
         {| b_Cep := b_Cep a; b_State := s; b_City := b_City a;
            b_Neighborhood := b_Neighborhood a; b_Street := b_Street a;
            b_Service := b_Service a |} |};
    {| json.tag := "city";
       json.store := fun s a =>
         {| b_Cep := b_Cep a; b_State := b_State a; b_City := s;
            b_Neighborhood := b_Neighborhood a; b_Street := b_Street a;
            b_Service := b_Service a |} |};
    {| json.tag := "neighborhood";
       json.store := fun s a =>
         {| b_Cep := b_Cep a; b_State := b_State a; b_City := b_City a;
            b_Neighborhood := s; b_Street := b_Street a;
            b_Service := b_Service a |} |};
    {| json.tag := "street";
       json.store := fun s a =>
         {| b_Cep := b_Cep a; b_State := b_State a; b_City := b_City a;
            b_Neighborhood := b_Neighborhood a; b_Street := s;
            b_Service := b_Service a |} |} ].

Definition AddressViaCep_fields : list (json.field AddressViaCep) :=
  [ {| json.tag := "cep";
       json.store := fun s a =>
         {| v_Cep := s; v_Uf := v_Uf a; v_Localidade := v_Localidade a;
            v_Bairro := v_Bairro a; v_Logradouro := v_Logradouro a;
            v_Service := v_Service a |} |};
    {| json.tag := "uf";
       json.store := fun s a =>
         {| v_Cep := v_Cep a; v_Uf := s; v_Localidade := v_Localidade a;
            v_Bairro := v_Bairro a; v_Logradouro := v_Logradouro a;
            v_Service := v_Service a |} |};
    {| json.tag := "localidade";
       json.store := fun s a =>
         {| v_Cep := v_Cep a; v_Uf := v_Uf a; v_Localidade := s;
            v_Bairro := v_Bairro a; v_Logradouro := v_Logradouro a;
            v_Service := v_Service a |} |};
    {| json.tag := "bairro";
       json.store := fun s a =>
         {| v_Cep := v_Cep a; v_Uf := v_Uf a; v_Localidade := v_Localidade a;
            v_Bairro := s; v_Logradouro := v_Logradouro a;
            v_Service := v_Service a |} |};
    {| json.tag := "logradouro";
       json.store := fun s a =>
         {| v_Cep := v_Cep a; v_Uf := v_Uf a; v_Localidade := v_Localidade a;
            v_Bairro := v_Bairro a; v_Logradouro := s;
            v_Service := v_Service a |} |} ].

(** [json.Unmarshal(body, &address)] at the two struct types. *)
Definition Unmarshal_AddressBrasil (body : string) (address : AddressBrasil)
  : AddressBrasil * option error :=
  json.Unmarshal "main" "AddressBrasil" AddressBrasil_fields body address.

Definition Unmarshal_AddressViaCep (body : string) (address : AddressViaCep)
  : AddressViaCep * option error :=
  json.Unmarshal "main" "AddressViaCep" AddressViaCep_fields body address.

(** What [json.Marshal] writes for the two struct types, as the value its
    text stands for: the exported fields under their tags, in the order of
    the struct, each string with its ill-formed bytes replaced. *)
Definition Marshal_string (s : string) : json.value :=
  json.Str (utf8.replace_ill_formed s).

Definition Marshal_AddressBrasil (a : AddressBrasil) : json.value :=
  json.Object
    [("cep", Marshal_string (b_Cep a)); ("state", Marshal_string (b_State a));
     ("city", Marshal_string (b_City a));
     ("neighborhood", Marshal_string (b_Neighborhood a));
     ("street", Marshal_string (b_Street a))].

Definition Marshal_AddressViaCep (a : AddressViaCep) : json.value :=
  json.Object
    [("cep", Marshal_string (v_Cep a)); ("uf", Marshal_string (v_Uf a));
     ("localidade", Marshal_string (v_Localidade a));
     ("bairro", Marshal_string (v_Bairro a));
     ("logradouro", Marshal_string (v_Logradouro a))].

Definition Marshal_any (d : any) : json.value :=
  match d with
  | anyNil => json.Null
  | anyAddressViaCep a => Marshal_AddressViaCep a
  | anyAddressBrasil a => Marshal_AddressBrasil a
  | anyOther repr => Marshal_string repr
  end.

(** [resultadoAPI] with a nil [Err]: the field tagged [erro,omitempty] is
    left out. *)
Definition Marshal_resultadoAPI (origem : string) (data : any) : json.value :=
  json.Object [("origem", Marshal_string origem); ("data", Marshal_any data)].

(** ** io and net/http *)

Module io.
(** A stream that yields [data] and then ends, at EOF or with an error. *)
Record Reader : Type := { data : string; failure : option error }.

Definition ReadAll (r : Reader) : string * option error :=
  (data r, failure r).
End io.

Module http.
Definition StatusOK : Z := 200.
Definition StatusBadRequest : Z := 400.
Definition StatusRequestTimeout : Z := 408.
Definition StatusInternalServerError : Z := 500.

Record Request : Type := {
  Ctx : context.Context;
  Method : string;
  URL : string
}.

Record Response : Type := {
  StatusCode : Z;
  Status : string;
  Body : io.Reader
}.

(** What the outside world does with one outbound call: whether the URL is
    accepted when the request is built, and what [DefaultClient.Do]
    returns for it. *)
Record Network : Type := {
  bad_url : string -> option error;
  round_trip : Request -> Response + error
}.

Definition NewRequestWithContext (net : Network) (ctx : context.Context)
    (method url : string) : Request + error :=
  match bad_url net url with
  | Some err => inr err
  | None => inl {| Ctx := ctx; Method := method; URL := url |}
  end.

Definition Do (net : Network) (req : Request) : Response + error :=
  round_trip net req.

(** What is written to a response body: plain text, or the JSON text of a
    value followed by a newline ([Encoder.Encode]). *)
Inductive chunk : Type :=
| Text (s : string)
| Encoded (v : json.value).

(** The handler's view of the response.  [status] is [None] until
    [WriteHeader] has been called, by the handler or by the first write. *)
Record ResponseWriter : Type := {
  Header : gmap string string;
  status : option Z;
  body : list chunk
}.

Definition NewResponseWriter : ResponseWriter :=
  {| Header := ∅; status := None; body := [] |}.

Definition Header_Set (w : ResponseWriter) (key val : string) : ResponseWriter :=
  {| Header := <[key := val]> (Header w); status := status w; body := body w |}.

Definition Header_Del (w : ResponseWriter) (key : string) : ResponseWriter :=
  {| Header := delete key (Header w); status := status w; body := body w |}.

Definition WriteHeader (w : ResponseWriter) (statusCode : Z) : ResponseWriter :=
  match status w with
  | Some _ => w
  | None => {| Header := Header w; status := Some statusCode; body := body w |}
  end.

Definition write (w : ResponseWriter) (c : chunk) : ResponseWriter :=
  let w := WriteHeader w StatusOK in
  {| Header := Header w; status := status w; body := body w ++ [c] |}.

(** [http.Error(w, error, code)]: the text and a newline, as plain text. *)
Definition Error (w : ResponseWriter) (error : string) (code : Z)
  : ResponseWriter :=
  let w := Header_Del w "Content-Length" in
  let w := Header_Set w "Content-Type" "text/plain; charset=utf-8" in
  let w := Header_Set w "X-Content-Type-Options" "nosniff" in
  let w := WriteHeader w code in
  write w (Text (error +:+ newline)).

(** [json.NewEncoder(w).Encode(v)]. *)
Definition Encode (w : ResponseWriter) (v : json.value) : ResponseWriter :=
  write w (Encoded v).

End http.

(** ** The upstream clients (lines 38-97)

    The two [time] calls and the [fmt.Println] of the duration write to
    standard output only and are left out. *)

Definition fetchFromBrasilAPI (net : http.Network) (ctx : context.Context)
    (cep : string) : AddressBrasil * option error :=
  let url := "https://brasilapi.com.br/api/cep/v1/" +:+ cep in
  match http.NewRequestWithContext net ctx "GET" url with
  | inr err =>
      let err := fmt.Errorf_v "error creating request: " err in
      (AddressBrasil_zero, Some err)
  | inl req =>
      match http.Do net req with
      | inr err => (AddressBrasil_zero, Some err)
      | inl resp =>
          if negb (http.StatusCode resp =? http.StatusOK) then
            (AddressBrasil_zero,
             Some (fmt.Errorf_s "requisição falhou: " (http.Status resp)))
          else
            match io.ReadAll (http.Body resp) with
            | (_, Some err) =>
                (AddressBrasil_zero,
                 Some (fmt.Errorf_v "error reading response: " err))
            | (body, None) =>
                match Unmarshal_AddressBrasil body AddressBrasil_zero with
                | (_, Some err) =>
                    (AddressBrasil_zero,
                     Some (fmt.Errorf_v "error reading response: " err))
                | (address, None) => (address, None)
                end
            end
      end
  end.

Definition fetchFromViaCep (net : http.Network) (ctx : context.Context)
    (cep : string) : AddressViaCep * option error :=
  let url := "https://viacep.com.br/ws/" +:+ cep +:+ "/json/" in
  match http.NewRequestWithContext net ctx "GET" url with
  | inr err =>
      let err := fmt.Errorf_v "error creating request: " err in
      (AddressViaCep_zero, Some err)
  | inl req =>
      match http.Do net req with
      | inr err => (AddressViaCep_zero, Some err)
      | inl resp =>
          match io.ReadAll (http.Body resp) with
          | (_, Some err) =>
              (AddressViaCep_zero,
               Some (fmt.Errorf_v "error reading response: " err))
          | (body, None) =>
              match Unmarshal_AddressViaCep body AddressViaCep_zero with
              | (_, Some err) =>
                  (AddressViaCep_zero,
                   Some (fmt.Errorf_v "error reading response: " err))
              | (address, None) => (address, None)
              end
          end
      end
  end.

(** ** The handler (lines 99-159) *)

(** Lines 100-105: the postal code of a path, or nothing when the handler
    answers 400. *)
Definition handleCEP_cep (path : string) : option string :=
  let parts := strings.Split path "/"%char in
  if negb (length parts =? 3)%nat || String.eqb (nth 2 parts "") "" then None
  else Some (nth 2 parts "").

(** Lines 102-103. *)
Definition handleCEP_usage (w : http.ResponseWriter) : http.ResponseWriter :=
  http.Error w "Uso correto: /cep/{cep}" http.StatusBadRequest.

(** Lines 108-115: the message the first goroutine sends. *)
Definition goBrasilAPI (net : http.Network) (ctx : context.Context)
    (cep : string) : resultadoAPI :=
  let (brasil, errBrasil) := fetchFromBrasilAPI net ctx cep in
  match errBrasil with
  | Some err => {| Origem := "brasilapi"; Data := anyNil; Err := Some err |}
  | None =>
      {| Origem := "brasilapi"; Data := anyAddressBrasil brasil; Err := None |}
  end.

(** Lines 116-123: the message the second goroutine sends. *)
Definition goViaCep (net : http.Network) (ctx : context.Context)
    (cep : string) : resultadoAPI :=
  let (viacep, errVia) := fetchFromViaCep net ctx cep in
  match errVia with
  | Some err => {| Origem := "viacep"; Data := anyNil; Err := Some err |}
  | None =>
      {| Origem := "viacep"; Data := anyAddressViaCep viacep; Err := None |}
  end.

(** Lines 127-158: what the handler writes for the message it received.
    A [case] whose type assertion fails leaves the [switch] without
    writing: Go does not fall through to [default]. *)
Definition handleCEP_respond (w : http.ResponseWriter) (result : resultadoAPI)
  : http.ResponseWriter :=
  match Err result with
  | Some err =>
      if errors.Is err context.DeadlineExceeded then
        http.Error w "Erro: tempo de espera excedido" http.StatusRequestTimeout
      else
        http.Error w ("Erro: " +:+ Error err) http.StatusInternalServerError
  | None =>
      let w := http.Header_Set w "Content-Type" "application/json" in
      if String.eqb (Origem result) "viacep" then
        match Data result with
        | anyAddressViaCep data =>
            let w := http.WriteHeader w http.StatusOK in
            http.Encode w (Marshal_resultadoAPI "viacep" (anyAddressViaCep data))
        | _ => w
        end
      else if String.eqb (Origem result) "brasilapi" then
        match Data result with
        | anyAddressBrasil data =>
            let w := http.WriteHeader w http.StatusOK in
            http.Encode w
              (Marshal_resultadoAPI "brasilapi" (anyAddressBrasil data))
        | _ => w
        end
      else
        http.Error w "Erro interno: tipo inesperado de resposta"
          http.StatusInternalServerError
  end.

(** ** One request as a transition system (lines 99-159)

    The handler runs its statements in order; each goroutine runs its
    upstream client and then sends; the deadline of the context may expire
    at any moment after the context was made.  A step that cannot run (a
    receive on an empty channel, a send on a full one, a statement of a
    function that has returned) has no successor.  What the network
    answers to a goroutine is an input of its step and is not tied to the
    state of the context: a call that is cut short by the deadline, by
    [cancel] or by the client going away is a network that returns the
    matching error. *)
Module Race.

Inductive origin : Type := BrasilAPI | ViaCep.

(** Where the handler stands: the statement it runs next, with the local
    variables it holds there.  [Returned] keeps the message the handler had
    received, if it got that far. *)
Inductive pc : Type :=
| AtSplit (path : string)
| AtWithTimeout (cep : string)
| AtMakeChan (cep : string)
| AtGoBrasilAPI (cep : string)
| AtGoViaCep (cep : string)
| AtReceive
| AtCancel (result : resultadoAPI)
| AtRespond (result : resultadoAPI)
| Returned (received : option resultadoAPI).

Inductive goroutine : Type :=
| NotStarted
| Fetching (cep : string)
| Sending (m : resultadoAPI)
| Exited.

(** [make(chan resultadoAPI, n)]: a queue of at most [n] messages. *)
Record channel : Type := {
  capacity : nat;
  queue : list resultadoAPI
}.

(** What has happened so far; the program does not read it. *)
Inductive event : Type :=
| EvBadRequest
| EvWithTimeout (timeout : Z)
| EvMakeChan (n : nat)
| EvGo (o : origin)
| EvFetch (o : origin)
| EvSend (o : origin) (m : resultadoAPI)
| EvReceive (m : resultadoAPI)
| EvCancel
| EvRespond
| EvExpire.

Record state : Type := {
  handler : pc;
  w : http.ResponseWriter;
  ctx : option context.Context;
  ctx_err : option error;
  resChan : option channel;
  brasilapi : goroutine;
  viacep : goroutine;
  log : list event
}.

Definition init (path : string) : state :=
  {| handler := AtSplit path; w := http.NewResponseWriter; ctx := None;
     ctx_err := None; resChan := None; brasilapi := NotStarted;
     viacep := NotStarted; log := [] |}.

(** *** Field updates *)

Definition goto (p : pc) (ev : list event) (s : state) : state :=
  {| handler := p; w := w s; ctx := ctx s; ctx_err := ctx_err s;
     resChan := resChan s; brasilapi := brasilapi s; viacep := viacep s;
     log := log s ++ ev |}.

Definition with_w (w' : http.ResponseWriter) (s : state) : state :=
  {| handler := handler s; w := w'; ctx := ctx s; ctx_err := ctx_err s;
     resChan := resChan s; brasilapi := brasilapi s; viacep := viacep s;
     log := log s |}.

Definition with_ctx (c : context.Context) (s : state) : state :=
  {| handler := handler s; w := w s; ctx := Some c; ctx_err := ctx_err s;
     resChan := resChan s; brasilapi := brasilapi s; viacep := viacep s;
     log := log s |}.

Definition with_ctx_err (e : error) (s : state) : state :=
  {| handler := handler s; w := w s; ctx := ctx s; ctx_err := Some e;
     resChan := resChan s; brasilapi := brasilapi s; viacep := viacep s;
     log := log s |}.

Definition with_chan (ch : channel) (s : state) : state :=
  {| handler := handler s; w := w s; ctx := ctx s; ctx_err := ctx_err s;
     resChan := Some ch; brasilapi := brasilapi s; viacep := viacep s;
     log := log s |}.

Definition goroutine_of (o : origin) (s : state) : goroutine :=
  match o with
  | BrasilAPI => brasilapi s
  | ViaCep => viacep s
  end.

Definition with_goroutine (o : origin) (g : goroutine) (ev : list event)
    (s : state) : state :=
  {| handler := handler s; w := w s; ctx := ctx s; ctx_err := ctx_err s;
     resChan := resChan s;
     brasilapi := match o with BrasilAPI => g | ViaCep => brasilapi s end;
     viacep := match o with ViaCep => g | BrasilAPI => viacep s end;
     log := log s ++ ev |}.

(** *** The steps *)

(** [cancel()]: the context is done from now on; a context that is done
    already keeps its error. *)
Definition cancel (s : state) : state :=
  match ctx_err s with
  | Some _ => s
  | None => with_ctx_err context.Canceled s
  end.

(** The handler runs its next statement. *)
Definition step_handler (s : state) : option state :=
  match handler s with
  | AtSplit path =>
      match handleCEP_cep path with
      | None =>
          Some (goto (Returned None) [EvBadRequest]
                  (with_w (handleCEP_usage (w s)) s))
      | Some cep => Some (goto (AtWithTimeout cep) [] s)
      end
  | AtWithTimeout cep =>
      let timeout := 1 * time.Second in
      Some (goto (AtMakeChan cep) [EvWithTimeout timeout]
              (with_ctx (context.WithTimeout timeout) s))
  | AtMakeChan cep =>
      Some (goto (AtGoBrasilAPI cep) [EvMakeChan 2]
              (with_chan {| capacity := 2; queue := [] |} s))
  | AtGoBrasilAPI cep =>
      Some (goto (AtGoViaCep cep) []
              (with_goroutine BrasilAPI (Fetching cep) [EvGo BrasilAPI] s))
  | AtGoViaCep cep =>
      Some (goto AtReceive []
              (with_goroutine ViaCep (Fetching cep) [EvGo ViaCep] s))
  | AtReceive =>
      match resChan s with
      | Some {| capacity := n; queue := result :: rest |} =>
          Some (goto (AtCancel result) [EvReceive result]
                  (with_chan {| capacity := n; queue := rest |} s))
      | _ => None
      end
  | AtCancel result => Some (goto (AtRespond result) [EvCancel] (cancel s))
  | AtRespond result =>
      Some (goto (Returned (Some result)) [EvRespond]
              (with_w (handleCEP_respond (w s) result) s))
  | Returned _ => None
  end.

(** The message a goroutine builds from what its upstream client returns. *)
Definition message (o : origin) (net : http.Network) (c : context.Context)
    (cep : string) : resultadoAPI :=
  match o with
  | BrasilAPI => goBrasilAPI net c cep
  | ViaCep => goViaCep net c cep
  end.

(** A goroutine runs its upstream client against the network [net]. *)
Definition step_fetch (o : origin) (net : http.Network) (s : state)
  : option state :=
  match goroutine_of o s, ctx s with
  | Fetching cep, Some c =>
      Some (with_goroutine o (Sending (message o net c cep)) [EvFetch o] s)
  | _, _ => None
  end.

(** A goroutine sends on [resChan]; the send blocks while the queue is
    full. *)
Definition step_send (o : origin) (s : state) : option state :=
  match goroutine_of o s, resChan s with
  | Sending m, Some ch =>
      if (length (queue ch) <? capacity ch)%nat then
        Some (with_goroutine o Exited [EvSend o m]
                (with_chan {| capacity := capacity ch;
                              queue := queue ch ++ [m] |} s))
      else None
  | _, _ => None
  end.

(** The deadline of the context passes. *)
Definition step_expire (s : state) : option state :=
  match ctx s, ctx_err s with
  | Some _, None =>
      Some (goto (handler s) [EvExpire]
              (with_ctx_err context.DeadlineExceeded s))
  | _, _ => None
  end.

Inductive label : Type :=
| Handler
| Fetch (o : origin) (net : http.Network)
| Send (o : origin)
| Expire.

Definition exec (s : state) (l : label) : option state :=
  match l with
  | Handler => step_handler s
  | Fetch o net => step_fetch o net s
  | Send o => step_send o s
  | Expire => step_expire s
  end.

Fixpoint run (s : state) (schedule : list label) : option state :=
  match schedule with
  | [] => Some s
  | l :: rest =>
      match exec s l with
      | Some s' => run s' rest
      | None => None
      end
  end.

(** The states some execution of a request for [path] passes through. *)
Definition reachable (path : string) (s : state) : Prop :=
  exists schedule, run (init path) schedule = Some s.

(** *** Reading the log *)

Definition origin_eqb (a b : origin) : bool :=
  match a, b with
  | BrasilAPI, BrasilAPI | ViaCep, ViaCep => true
  | _, _ => false
  end.

(** The sends on the channel, in the order of delivery. *)
Definition deliveries (l : list event) : list (origin * resultadoAPI) :=
  flat_map (fun e => match e with EvSend o m => [(o, m)] | _ => [] end) l.

(** The messages delivered to the channel, in the order of delivery. *)
Definition delivered (l : list event) : list resultadoAPI :=
  map snd (deliveries l).

(** The messages one goroutine delivered. *)
Definition delivered_by (o : origin) (l : list event) : list resultadoAPI :=
  map snd (List.filter (fun d => origin_eqb o (fst d)) (deliveries l)).

(** The messages the handler took from the channel. *)
Definition received (l : list event) : list resultadoAPI :=
  flat_map (fun e => match e with EvReceive m => [m] | _ => [] end) l.

(** The number of runs of an upstream client. *)
Definition fetches (l : list event) : nat :=
  length (List.filter (fun e => match e with EvFetch _ => true | _ => false end) l).

Definition is_handler_event (e : event) : bool :=
  match e with
  | EvFetch _ | EvSend _ _ | EvExpire => false
  | _ => true
  end.

(** The handler's own events, in program order. *)
Definition handler_events (l : list event) : list event :=
  List.filter is_handler_event l.

(** *** What holds in every state of every execution *)

Definition setup : list event :=
  [EvWithTimeout (1 * time.Second); EvMakeChan 2; EvGo BrasilAPI; EvGo ViaCep].

(** The handler's events when it stands at [p]. *)
Definition program_order (p : pc) : list event :=
  match p with
  | AtSplit _ | AtWithTimeout _ => []
  | AtMakeChan _ => firstn 1 setup
  | AtGoBrasilAPI _ => firstn 2 setup
  | AtGoViaCep _ => firstn 3 setup
  | AtReceive => setup
  | AtCancel m => setup ++ [EvReceive m]
  | AtRespond m => setup ++ [EvReceive m; EvCancel]
  | Returned None => [EvBadRequest]
  | Returned (Some m) => setup ++ [EvReceive m; EvCancel; EvRespond]
  end.

(** The message the handler holds at [p]. *)
Definition taken (p : pc) : list resultadoAPI :=
  match p with
  | AtCancel m | AtRespond m | Returned (Some m) => [m]
  | _ => []
  end.

Definition has_ctx (p : pc) : bool :=
  match p with
  | AtSplit _ | AtWithTimeout _ | Returned None => false
  | _ => true
  end.

Definition has_chan (p : pc) : bool :=
  match p with
  | AtSplit _ | AtWithTimeout _ | AtMakeChan _ | Returned None => false
  | _ => true
  end.

Definition started (o : origin) (p : pc) : bool :=
  match p with
  | AtSplit _ | AtWithTimeout _ | AtMakeChan _ | AtGoBrasilAPI _
  | Returned None => false
  | AtGoViaCep _ => origin_eqb o BrasilAPI
  | _ => true
  end.

Definition cancelled (p : pc) : bool :=
  match p with
  | AtRespond _ | Returned (Some _) => true
  | _ => false
  end.

(** What the handler has written when it stands at [p]. *)
Definition written (p : pc) : http.ResponseWriter :=
  match p with
  | Returned None => handleCEP_usage http.NewResponseWriter
  | Returned (Some m) => handleCEP_respond http.NewResponseWriter m
  | _ => http.NewResponseWriter
  end.

(** [m] is what the goroutine of [o] builds for some answer of the
    network. *)
Definition from_upstream (o : origin) (m : resultadoAPI) : Prop :=
  exists net c cep, m = message o net c cep.

Definition goroutine_ok (o : origin) (g : goroutine) (l : list event) : Prop :=
  match g with
  | NotStarted | Fetching _ => delivered_by o l = []
  | Sending m => delivered_by o l = [] /\ from_upstream o m
  | Exited => exists m, delivered_by o l = [m] /\ from_upstream o m
  end.

(** The upstream client of a goroutine has run once it sends or is done. *)
Definition has_fetched (g : goroutine) : nat :=
  match g with
  | NotStarted | Fetching _ => 0
  | Sending _ | Exited => 1
  end.

Record invariant (path : string) (s : state) : Prop := {
  inv_path :
    match handler s with
    | AtSplit p => p = path
    | Returned None => handleCEP_cep path = None
    | _ => handleCEP_cep path <> None
    end;
  inv_order : handler_events (log s) = program_order (handler s);
  inv_quiet : has_ctx (handler s) = false -> log s = program_order (handler s);
  inv_w : w s = written (handler s);
  inv_ctx :
    ctx s = if has_ctx (handler s)
            then Some (context.WithTimeout (1 * time.Second)) else None;
  inv_ctx_err :
    (ctx s = None -> ctx_err s = None) /\
    (cancelled (handler s) = true -> ctx_err s <> None);
  inv_chan :
    if has_chan (handler s)
    then exists q, resChan s = Some {| capacity := 2; queue := q |} /\
                   delivered (log s) = taken (handler s) ++ q
    else resChan s = None /\ delivered (log s) = [];
  inv_received : received (log s) = taken (handler s);
  inv_started :
    forall o, goroutine_of o s = NotStarted <-> started o (handler s) = false;
  inv_goroutine : forall o, goroutine_ok o (goroutine_of o s) (log s);
  inv_fetches :
    fetches (log s) = (has_fetched (brasilapi s) + has_fetched (viacep s))%nat;
  inv_deliveries :
    Forall (fun d => from_upstream (fst d) (snd d)) (deliveries (log s))
}.

End Race.

(** ** Notions the claims are stated with *)

(** The network answered the request for [url] with [resp]: the request
    was built and [Do] returned a response. *)
Definition answered (net : http.Network) (ctx : context.Context)
    (url : string) (resp : http.Response) : Prop :=
  exists req, http.NewRequestWithContext net ctx "GET" url = inl req /\
              http.Do net req = inl resp.

(** The names under which ViaCep's address fields are decoded. *)
Definition ViaCep_tags : list string :=
  ["cep"; "uf"; "localidade"; "bairro"; "logradouro"].

(** An object key that selects an address field, up to case. *)
Definition names_ViaCep_field (key : string) : Prop :=
  In (json.foldName key) (map json.foldName ViaCep_tags).

(** A JSON value that holds none of ViaCep's address fields: an object
    no key of which selects one, or a value that is no object and so has
    no members at all. *)
Definition no_ViaCep_field (v : json.value) : Prop :=
  match v with
  | json.Object members =>
      Forall (fun kv : string * json.value => ~ names_ViaCep_field (fst kv))
        members
  | _ => True
  end.

(** The JSON values that [json.Unmarshal] accepts for a struct. *)
Definition object_or_null (v : json.value) : Prop :=
  match v with
  | json.Object _ | json.Null => True
  | _ => False
  end.

(** The success envelope of ViaCep around an address without content. *)
Definition empty_envelope : json.value :=
  json.Object
    [("origem", json.Str "viacep");
     ("data",
      json.Object
        [("cep", json.Str ""); ("uf", json.Str ""); ("localidade", json.Str "");
         ("bairro", json.Str ""); ("logradouro", json.Str "")])].

(** [strings.Join]: the inverse of [strings.Split]. *)
Fixpoint Join (parts : list string) (sep : ascii) : string :=
  match parts with
  | [] => ""
  | p :: rest =>
      match rest with
      | [] => p
      | _ :: _ => p +:+ String sep (Join rest sep)
      end
  end.

Definition free_of (sep : ascii) (s : string) : Prop :=
  ~ In sep (list_ascii_of_string s).

(** A path that starts with a slash, as every path that the server
    routes to a handler registered under [/cep/] does. *)
Definition rooted (path : string) : Prop :=
  exists rest, path = String "/"%char rest.

(** Exactly two segments after the leading slash, the second one, the
    postal code, not empty. *)
Definition two_segments (path : string) : Prop :=
  exists a b,
    path = String "/"%char (a +:+ String "/"%char b) /\
    free_of "/"%char a /\ free_of "/"%char b /\ b <> "".

Definition other (o : Race.origin) : Race.origin :=
  match o with
  | Race.BrasilAPI => Race.ViaCep
  | Race.ViaCep => Race.BrasilAPI
  end.

(** The name of a provider in the envelope. *)
Definition origem (o : Race.origin) : string :=
  match o with
  | Race.BrasilAPI => "brasilapi"
  | Race.ViaCep => "viacep"
  end.

(** The names of a provider's address fields in its JSON texts, in the
    order of its struct (lines 15-19 and 24-28). *)
Definition address_names (o : Race.origin) : list string :=
  match o with
  | Race.BrasilAPI => ["cep"; "state"; "city"; "neighborhood"; "street"]
  | Race.ViaCep => ViaCep_tags
  end.

(** The object that holds [texts] under the names of [o]. *)
Definition address_object (o : Race.origin) (texts : list string)
  : json.value :=
  json.Object (combine (address_names o) (map json.Str texts)).

(** A value that has the address shape of a provider: an object of
    exactly the five members of that provider, in order, each a string. *)
Definition address_shape (o : Race.origin) (v : json.value) : Prop :=
  exists texts, length texts = 5%nat /\ v = address_object o texts.

(** The five strings of an address, in the order of its struct. *)
Definition address_texts (d : any) : list string :=
  match d with
  | anyAddressViaCep a =>
      [v_Cep a; v_Uf a; v_Localidade a; v_Bairro a; v_Logradouro a]
  | anyAddressBrasil a =>
      [b_Cep a; b_State a; b_City a; b_Neighborhood a; b_Street a]
  | _ => []
  end.



(** The handler's events of a raced request that received [m], from the
    creation of the context to the response. *)
Definition raced_order (m : resultadoAPI) : list Race.event :=
  [Race.EvWithTimeout (1 * time.Second); Race.EvMakeChan 2;
   Race.EvGo Race.BrasilAPI; Race.EvGo Race.ViaCep;
   Race.EvReceive m; Race.EvCancel; Race.EvRespond].

Definition pc_rank (p : Race.pc) : nat :=
  match p with
  | Race.AtSplit _ => 8
  | Race.AtWithTimeout _ => 7
  | Race.AtMakeChan _ => 6
  | Race.AtGoBrasilAPI _ => 5
  | Race.AtGoViaCep _ => 4
  | Race.AtReceive => 3
  | Race.AtCancel _ => 2
  | Race.AtRespond _ => 1
  | Race.Returned _ => 0
  end.

Definition goroutine_rank (g : Race.goroutine) : nat :=
  match g with
  | Race.NotStarted | Race.Fetching _ => 2
  | Race.Sending _ => 1
  | Race.Exited => 0
  end.

(** The number of steps the three tasks have left, at most. *)
Definition steps_left (s : Race.state) : nat :=
  pc_rank (Race.handler s) + goroutine_rank (Race.brasilapi s) +
  goroutine_rank (Race.viacep s).

Definition at_rest (g : Race.goroutine) : Prop :=
  g = Race.NotStarted \/ g = Race.Exited.

(** Every task has run to its end: the handler has returned and no
    goroutine is left running or waiting. *)
Definition finished (s : Race.state) : Prop :=
  (exists rcv, Race.handler s = Race.Returned rcv) /\
  at_rest (Race.brasilapi s) /\ at_rest (Race.viacep s).

(** ** Notions the further properties are stated with *)

(** The one request each client makes. *)
Definition request_ViaCep (ctx : context.Context) (cep : string)
  : http.Request :=
  {| http.Ctx := ctx; http.Method := "GET";
     http.URL := "https://viacep.com.br/ws/" +:+ cep +:+ "/json/" |}.

Definition request_BrasilAPI (ctx : context.Context) (cep : string)
  : http.Request :=
  {| http.Ctx := ctx; http.Method := "GET";
     http.URL := "https://brasilapi.com.br/api/cep/v1/" +:+ cep |}.

(** An address as it comes back from its JSON text: every string with its
    ill-formed bytes replaced, and without the field tagged [json:"-"]. *)
Definition decoded_ViaCep (a : AddressViaCep) : AddressViaCep :=
  let valid := utf8.replace_ill_formed in
  {| v_Cep := valid (v_Cep a); v_Uf := valid (v_Uf a);
     v_Localidade := valid (v_Localidade a); v_Bairro := valid (v_Bairro a);
     v_Logradouro := valid (v_Logradouro a); v_Service := "" |}.

Definition decoded_BrasilAPI (a : AddressBrasil) : AddressBrasil :=
  let valid := utf8.replace_ill_formed in
  {| b_Cep := valid (b_Cep a); b_State := valid (b_State a);
     b_City := valid (b_City a);
     b_Neighborhood := valid (b_Neighborhood a);
     b_Street := valid (b_Street a); b_Service := "" |}.

(** The field of an address that is decoded under [tag]. *)
Definition ViaCep_field (tag : string) (a : AddressViaCep) : string :=
  if String.eqb tag "cep" then v_Cep a
  else if String.eqb tag "uf" then v_Uf a
  else if String.eqb tag "localidade" then v_Localidade a
  else if String.eqb tag "bairro" then v_Bairro a
  else if String.eqb tag "logradouro" then v_Logradouro a
  else "".

Definition BrasilAPI_field (tag : string) (a : AddressBrasil) : string :=
  if String.eqb tag "cep" then b_Cep a
  else if String.eqb tag "state" then b_State a
  else if String.eqb tag "city" then b_City a
  else if String.eqb tag "neighborhood" then b_Neighborhood a
  else if String.eqb tag "street" then b_Street a
  else "".

(** A response written by [http.Error]: a status, plain text, one line. *)
Definition plain_text (w : http.ResponseWriter) (code : Z) : Prop :=
  http.status w = Some code /\
  http.Header w !! "Content-Type" = Some "text/plain; charset=utf-8" /\
  exists msg, http.body w = [http.Text (msg +:+ newline)].

(** A success response: 200, JSON, one encoded value. *)
Definition json_ok (w : http.ResponseWriter) : Prop :=
  http.status w = Some http.StatusOK /\
  http.Header w !! "Content-Type" = Some "application/json" /\
  exists v, http.body w = [http.Encoded v].

(** The postal code the handler holds before the goroutines have it. *)
Definition pc_cep (p : Race.pc) : option string :=
  match p with
  | Race.AtWithTimeout c | Race.AtMakeChan c | Race.AtGoBrasilAPI c
  | Race.AtGoViaCep c => Some c
  | _ => None
  end.

(** The one request the client of [o] makes for a postal code. *)
Definition request_of (o : Race.origin) (ctx : context.Context) (cep : string)
  : http.Request :=
  match o with
  | Race.BrasilAPI => request_BrasilAPI ctx cep
  | Race.ViaCep => request_ViaCep ctx cep
  end.

(** Two networks that treat one request alike: both accept its URL or
    refuse it with the same error, and [Do] returns the same for it. *)
Definition same_answer (net net' : http.Network) (req : http.Request) : Prop :=
  http.bad_url net (http.URL req) = http.bad_url net' (http.URL req) /\
  http.round_trip net req = http.round_trip net' req.

(** In [schedule] the client of [o] ran once, against [net]. *)
Definition ran_once (schedule : list Race.label) (o : Race.origin)
    (net : http.Network) : Prop :=
  In (Race.Fetch o net) schedule /\
  forall net', In (Race.Fetch o net') schedule -> net' = net.

(** [m] is what the goroutine of [o] built in [schedule]: the message for
    the postal code of [path], the context of one second and the network
    its client met. *)
Definition asked_for (path : string) (schedule : list Race.label)
    (o : Race.origin) (m : resultadoAPI) : Prop :=
  exists cep net,
    handleCEP_cep path = Some cep /\
    ran_once schedule o net /\
    m = Race.message o net (context.WithTimeout (1 * time.Second)) cep.

Definition never_ran (schedule : list Race.label) (o : Race.origin) : Prop :=
  forall net, ~ In (Race.Fetch o net) schedule.

Definition goroutine_for (path : string) (schedule : list Race.label)
    (o : Race.origin) (g : Race.goroutine) : Prop :=
  match g with
  | Race.NotStarted => never_ran schedule o
  | Race.Fetching c => handleCEP_cep path = Some c /\ never_ran schedule o
  | Race.Sending m => asked_for path schedule o m
  | Race.Exited => True
  end.

(** The postal code of the path is the only one in the system, and each
    message comes from the one run of its client. *)
Record carries_cep (path : string) (schedule : list Race.label)
    (s : Race.state) : Prop := {
  cc_pc :
    forall c, pc_cep (Race.handler s) = Some c -> handleCEP_cep path = Some c;
  cc_goroutine :
    forall o, goroutine_for path schedule o (Race.goroutine_of o s);
  cc_deliveries :
    Forall (fun d => asked_for path schedule (fst d) (snd d))
      (Race.deliveries (Race.log s))
}.

(** ** Example inputs *)

(** JSON text written with apostrophes in place of double quotes. *)
Definition quoted (s : string) : string :=
  string_of_list_ascii
    (map (fun c => if Ascii.eqb c "'"%char then dquote else c)
       (list_ascii_of_string s)).

(** [n] times the byte [c], then [tail]. *)
Fixpoint repeated (n : nat) (c : ascii) (tail : string) : string :=
  match n with
  | O => tail
  | S k => String c (repeated k c tail)
  end.

(** [n] arrays, one inside the other. *)
Definition nested (n : N) : string :=
  repeated (N.to_nat n) "[" (repeated (N.to_nat n) "]" "").

(** What [json.Unmarshal] says of a text: nothing, or the text of its
    syntax error. *)
Definition complaint (data : string) : string :=
  match json.checkValid data with
  | None => ""
  | Some err => Error err
  end.

(** A network that answers every request with one response. *)
Definition answers (code : Z) (status : string) (body : io.Reader)
  : http.Network :=
  {| http.bad_url := fun _ => None;
     http.round_trip := fun _ =>
       inl {| http.StatusCode := code; http.Status := status;
              http.Body := body |} |}.

(** A network on which every call fails with [err]. *)
Definition fails (err : error) : http.Network :=
  {| http.bad_url := fun _ => None;
     http.round_trip := fun req =>
       inr (urlError "Get" (http.URL req) err) |}.

Definition complete (data : string) : io.Reader :=
  {| io.data := data; io.failure := None |}.

Definition broken (data : string) (err : error) : io.Reader :=
  {| io.data := data; io.failure := Some err |}.

Definition race_ctx : context.Context := context.WithTimeout (1 * time.Second).

Definition unavailable : http.Network :=
  answers 503 "503 Service Unavailable" (complete "").

Definition found_by_ViaCep : http.Network :=
  answers 200 "200 OK"
    (complete (quoted "{'cep': '01001-000', 'logradouro': 'Praça da Sé', 'bairro': 'Sé', 'localidade': 'São Paulo', 'uf': 'SP'}")).

Definition found_by_BrasilAPI : http.Network :=
  answers 200 "200 OK"
    (complete (quoted "{'cep': '01001000', 'state': 'SP', 'city': 'São Paulo', 'neighborhood': 'Sé', 'street': 'Praça da Sé', 'service': 'open-cep'}")).

Definition not_json : http.Network :=
  answers 200 "200 OK" (complete "<html>Bad Request</html>").

Definition unknown_cep : http.Network :=
  answers 200 "200 OK" (complete (quoted "{'erro': true}")).

(** The state a schedule leads to. *)
Definition after (path : string) (schedule : list Race.label) : Race.state :=
  match Race.run (Race.init path) schedule with
  | Some s => s
  | None => Race.init path
  end.

(** The handler up to the receive, and from the receive to its return. *)
Definition start : list Race.label :=
  [Race.Handler; Race.Handler; Race.Handler; Race.Handler; Race.Handler].
Definition finish : list Race.label :=
  [Race.Handler; Race.Handler; Race.Handler].

(** BrasilAPI answers 503 first; ViaCep would have found the address. *)
Definition failure_first : list Race.label :=
  start ++ [Race.Fetch Race.BrasilAPI unavailable; Race.Send Race.BrasilAPI] ++
  finish ++ [Race.Fetch Race.ViaCep found_by_ViaCep; Race.Send Race.ViaCep].

(** The same, stopped where the loser still holds its message. *)
Definition loser_pending : list Race.label :=
  start ++ [Race.Fetch Race.BrasilAPI unavailable; Race.Send Race.BrasilAPI] ++
  finish ++ [Race.Fetch Race.ViaCep found_by_ViaCep].

(** ViaCep answers first, BrasilAPI after the handler has returned. *)
Definition ViaCep_first : list Race.label :=
  start ++ [Race.Fetch Race.ViaCep found_by_ViaCep; Race.Send Race.ViaCep] ++
  finish ++
  [Race.Fetch Race.BrasilAPI found_by_BrasilAPI; Race.Send Race.BrasilAPI].

(** Both calls are still in flight when the deadline passes. *)
Definition both_time_out : list Race.label :=
  start ++
  [Race.Expire; Race.Fetch Race.ViaCep (fails context.DeadlineExceeded);
   Race.Send Race.ViaCep;
   Race.Fetch Race.BrasilAPI (fails context.DeadlineExceeded);
   Race.Send Race.BrasilAPI] ++ finish.

(** The address of the Praça da Sé, and ViaCep's answer for it with the
    members in the order of the struct. *)
Definition Praca_da_Se : AddressViaCep :=
  {| v_Cep := "01001-000"; v_Uf := "SP"; v_Localidade := "São Paulo";
     v_Bairro := "Sé"; v_Logradouro := "Praça da Sé"; v_Service := "" |}.

Definition Praca_da_Se_text : string :=
  quoted "{'cep':'01001-000','uf':'SP','localidade':'São Paulo','bairro':'Sé','logradouro':'Praça da Sé'}".

Definition Praca_da_Se_found : http.Network :=
  answers 200 "200 OK" (complete Praca_da_Se_text).

(** An answer that is a success of HTTP and not a 200. *)
Definition no_content : http.Network :=
  answers 204 "204 No Content" (complete "{}").

(** An answer without the state. *)
Definition no_state_text : string := quoted "{'cep':'01001-000','CITY':'SP'}".

Definition no_state : http.Network :=
  answers 200 "200 OK" (complete no_state_text).

(** A network that refuses a URL with a control character in it when the
    request is built, with the error of [url.Parse]. *)
Definition has_control (url : string) : bool :=
  existsb (fun c => (code c <? 32)%N || (code c =? 127)%N)
    (list_ascii_of_string url).

Definition refuses_control : http.Network :=
  {| http.bad_url := fun url =>
       if has_control url then
         Some (urlError "parse" url
                 (errorString "net/url: invalid control character in URL"))
       else None;
     http.round_trip := fun req => inr (errorString "unreachable") |}.

(** Both goroutines started, nothing delivered, the deadline passed. *)
Definition nobody_answers : list Race.label := start ++ [Race.Expire].


(** * Properties

    First the lemmas on the log and the invariant of the transition
    system, then the lemmas on the functions, then one theorem for each
    claim about the program. *)

Import Race.

(** ** The log is read piecewise *)

Lemma handler_events_app l1 l2 :
  handler_events (l1 ++ l2) = handler_events l1 ++ handler_events l2.
Proof. apply List.filter_app. Qed.

Lemma deliveries_app l1 l2 :
  deliveries (l1 ++ l2) = deliveries l1 ++ deliveries l2.
Proof. apply flat_map_app. Qed.

Lemma delivered_app l1 l2 : delivered (l1 ++ l2) = delivered l1 ++ delivered l2.
Proof. unfold delivered. now rewrite deliveries_app, map_app. Qed.

Lemma delivered_by_app o l1 l2 :
  delivered_by o (l1 ++ l2) = delivered_by o l1 ++ delivered_by o l2.
Proof. unfold delivered_by. now rewrite deliveries_app, List.filter_app, map_app. Qed.

Lemma received_app l1 l2 : received (l1 ++ l2) = received l1 ++ received l2.
Proof. apply flat_map_app. Qed.

Lemma fetches_app l1 l2 : fetches (l1 ++ l2) = (fetches l1 + fetches l2)%nat.
Proof. unfold fetches. now rewrite List.filter_app, length_app. Qed.

Lemma invariant_init path : invariant path (init path).
Proof.
  constructor; simpl; auto.
  - intros o; destruct o; simpl; tauto.
  - intros o; destruct o; simpl; auto.
Qed.

Ltac log_simpl :=
  rewrite ?app_nil_r in *;
  repeat rewrite ?handler_events_app, ?deliveries_app, ?delivered_app,
    ?delivered_by_app, ?received_app, ?fetches_app in *;
  simpl in *; rewrite ?app_nil_r, ?Nat.add_0_r in *.

Ltac open_invariant H :=
  let Hst := fresh "Hst" in
  let Hg := fresh "Hg" in
  destruct H as [Hpath Hord Hq Hw Hctx [Hce1 Hce2] Hch Hrcv Hst Hg Hf Hd];
  pose proof (Hst BrasilAPI) as HstB; pose proof (Hst ViaCep) as HstV;
  pose proof (Hg BrasilAPI) as HgB; pose proof (Hg ViaCep) as HgV;
  clear Hst Hg.

Lemma goroutine_ok_log o g l l' :
  delivered_by o l' = delivered_by o l ->
  goroutine_ok o g l -> goroutine_ok o g l'.
Proof. intros E; destruct g; simpl; rewrite E; auto. Qed.

Ltac use_quiet :=
  repeat match goal with
         | Hq : ?b = ?b -> _ = _ |- _ => specialize (Hq eq_refl)
         end; subst.

Ltac rewrite_log :=
  repeat match goal with
         | H : handler_events _ = _ |- _ => rewrite H
         | H : received _ = _ |- _ => rewrite H
         | H : delivered _ = _ |- _ => rewrite H
         | H : fetches _ = _ |- _ => rewrite H
         end.

(** Facts of the invariant in a form the case analysis can use. *)
Ltac prepare :=
  repeat match goal with
         | H : ?g = NotStarted <-> ?b = ?b |- _ =>
             assert (g = NotStarted) by (apply H; reflexivity); clear H; subst g
         | H : exists q, _ = Some _ /\ _ |- _ =>
             let q := fresh "q" in
             let E := fresh "Hdel" in destruct H as [q [-> E]]
         | H : _ = None /\ delivered _ = [] |- _ =>
             let E := fresh "Hdel" in destruct H as [-> E]
         end.

Ltac close_field :=
  solve [ auto | congruence | tauto | lia
        | rewrite_log; simpl; auto; congruence
        | intros _; use_quiet; simpl in *; auto; congruence
        | eexists; split; [ reflexivity | rewrite_log; simpl; auto ]
        | intros []; simpl; log_simpl;
          solve [ auto | tauto | congruence
                | split; intros; (congruence || discriminate) ]
        | intros []; simpl;
          first [ solve [ log_simpl; auto ]
                | (eapply goroutine_ok_log; [ | eassumption ]);
                  log_simpl; reflexivity ]
        | split; [ auto; congruence | intros; congruence ] ].

Ltac close_invariant :=
  constructor; simpl; log_simpl; try close_field.

Lemma invariant_handler path s s' :
  invariant path s -> step_handler s = Some s' -> invariant path s'.
Proof.
  intros Hinv Hstep. open_invariant Hinv.
  unfold step_handler, cancel in Hstep.
  destruct s as [h w0 c ce ch gb gv l]; simpl in *.
  destruct h; simpl in *; prepare.
  - destruct (handleCEP_cep path0) eqn:Hcep; inversion Hstep; subst; clear Hstep;
    close_invariant.
  - inversion Hstep; subst; clear Hstep; close_invariant.
  - inversion Hstep; subst; clear Hstep; close_invariant.
  - inversion Hstep; subst; clear Hstep; close_invariant.
  - inversion Hstep; subst; clear Hstep; close_invariant.
  - match type of Hstep with
    | context [match ?q with [] => _ | _ :: _ => _ end] => destruct q
    end; inversion Hstep; subst; clear Hstep; close_invariant.
  - destruct ce; inversion Hstep; subst; clear Hstep; close_invariant.
  - inversion Hstep; subst; clear Hstep; close_invariant.
  - discriminate.
Qed.

Ltac keep_goroutine :=
  (eapply goroutine_ok_log; [ | eassumption ]); log_simpl; reflexivity.

Lemma invariant_fetch path o net s s' :
  invariant path s -> step_fetch o net s = Some s' -> invariant path s'.
Proof.
  intros Hinv Hstep. open_invariant Hinv.
  unfold step_fetch in Hstep.
  destruct s as [h w0 c ce ch gb gv l]; simpl in *.
  destruct o; simpl in *;
    [ destruct gb; try discriminate | destruct gv; try discriminate ];
    (destruct c as [c|]; try discriminate);
    inversion Hstep; subst; clear Hstep; close_invariant.
  - intros E; rewrite E in Hctx; discriminate.
  - intros []; simpl; [ | exact HstV ].
    split; intros X; [ discriminate | apply HstB in X; discriminate ].
  - intros []; simpl; [ | keep_goroutine ].
    split; [ log_simpl; auto | eexists _, _, _; reflexivity ].
  - rewrite Hf; unfold fetches; simpl; lia.
  - intros E; rewrite E in Hctx; discriminate.
  - intros []; simpl; [ exact HstB | ].
    split; intros X; [ discriminate | apply HstV in X; discriminate ].
  - intros []; simpl; [ keep_goroutine | ].
    split; [ log_simpl; auto | eexists _, _, _; reflexivity ].
Qed.


Lemma has_chan_has_ctx p : has_chan p = true -> has_ctx p = true.
Proof. destruct p as [| | | | | | | |[]]; simpl; auto. Qed.

Lemma invariant_send path o s s' :
  invariant path s -> step_send o s = Some s' -> invariant path s'.
Proof.
  intros Hinv Hstep. open_invariant Hinv.
  unfold step_send in Hstep.
  destruct s as [h w0 c ce ch gb gv l]; simpl in *.
  assert (Hchan : forall x, ch = Some x ->
            has_chan h = true /\ capacity x = 2%nat /\
            delivered l = taken h ++ queue x).
  { intros x ->. destruct (has_chan h).
    - destruct Hch as [q [E Hdel]]. inversion E; subst; auto.
    - destruct Hch; discriminate. }
  destruct o; simpl in *;
    [ destruct gb; try discriminate | destruct gv; try discriminate ];
    (destruct ch as [ch|]; try discriminate);
    (destruct (length (queue ch) <? capacity ch)%nat eqn:Hroom; try discriminate);
    destruct (Hchan ch eq_refl) as [Hhas [Hcap Hdel]];
    inversion Hstep; subst; clear Hstep; close_invariant.
  - intros E. apply has_chan_has_ctx in Hhas. congruence.
  - rewrite Hhas. eexists; split; [ rewrite Hcap; reflexivity | ].
    rewrite Hdel, <- app_assoc. reflexivity.
  - intros []; simpl; [ | exact HstV ].
    split; intros X; [ discriminate | apply HstB in X; discriminate ].
  - intros []; simpl; [ | keep_goroutine ].
    destruct HgB as [E Hm]. exists m; split; [ | exact Hm ].
    log_simpl. rewrite E. reflexivity.
  - apply Forall_app; split; [ exact Hd | ].
    constructor; [ apply HgB | constructor ].
  - intros E. apply has_chan_has_ctx in Hhas. congruence.
  - rewrite Hhas. eexists; split; [ rewrite Hcap; reflexivity | ].
    rewrite Hdel, <- app_assoc. reflexivity.
  - intros []; simpl; [ exact HstB | ].
    split; intros X; [ discriminate | apply HstV in X; discriminate ].
  - intros []; simpl; [ keep_goroutine | ].
    destruct HgV as [E Hm]. exists m; split; [ | exact Hm ].
    log_simpl. rewrite E. reflexivity.
  - apply Forall_app; split; [ exact Hd | ].
    constructor; [ apply HgV | constructor ].
Qed.

Lemma invariant_expire path s s' :
  invariant path s -> step_expire s = Some s' -> invariant path s'.
Proof.
  intros Hinv Hstep. open_invariant Hinv.
  unfold step_expire in Hstep.
  destruct s as [h w0 c ce ch gb gv l]; simpl in *.
  destruct c as [c|]; try discriminate. destruct ce; try discriminate.
  inversion Hstep; subst; clear Hstep; close_invariant.
  intros E; rewrite E in Hctx; discriminate.
Qed.

Lemma invariant_exec path s l s' :
  invariant path s -> exec s l = Some s' -> invariant path s'.
Proof.
  destruct l; simpl;
    eauto using invariant_handler, invariant_fetch, invariant_send,
      invariant_expire.
Qed.

Lemma invariant_run path schedule : forall s s',
  invariant path s -> run s schedule = Some s' -> invariant path s'.
Proof.
  induction schedule as [|l rest IH]; simpl; intros s s' Hinv Hrun.
  - inversion Hrun; subst; exact Hinv.
  - destruct (exec s l) as [s1|] eqn:Hexec; [ | discriminate ].
    eauto using invariant_exec.
Qed.

Lemma invariant_reachable path s : reachable path s -> invariant path s.
Proof.
  intros [schedule Hrun]. eauto using invariant_run, invariant_init.
Qed.

(** ** What [http.Error] writes *)

Lemma http_Error_status w msg code :
  http.status w = None -> http.status (http.Error w msg code) = Some code.
Proof.
  intros H. unfold http.Error, http.write, http.WriteHeader,
    http.Header_Set, http.Header_Del; cbn. rewrite H; cbn. reflexivity.
Qed.

Lemma http_Error_body w msg code :
  http.body (http.Error w msg code) =
    http.body w ++ [http.Text (msg +:+ newline)].
Proof.
  unfold http.Error, http.write, http.WriteHeader,
    http.Header_Set, http.Header_Del; cbn.
  destruct (http.status w); reflexivity.
Qed.

Lemma http_Error_content_type w msg code :
  http.Header (http.Error w msg code) !! "Content-Type" =
    Some "text/plain; charset=utf-8".
Proof.
  unfold http.Error, http.write, http.WriteHeader,
    http.Header_Set, http.Header_Del; cbn.
  destruct (http.status w); cbn;
    (rewrite lookup_insert_ne by discriminate); apply lookup_insert_eq.
Qed.

(** ** The branches of the handler's answer (lines 127-158) *)

(** Lines 127-134: a failure is a 408 when [errors.Is] finds the deadline
    error in its chain, and a 500 with its text otherwise. *)
Lemma handleCEP_respond_failure w result err :
  Err result = Some err ->
  handleCEP_respond w result =
    if errors.Is err context.DeadlineExceeded
    then http.Error w "Erro: tempo de espera excedido" http.StatusRequestTimeout
    else http.Error w ("Erro: " +:+ Error err) http.StatusInternalServerError.
Proof. intros H. unfold handleCEP_respond. rewrite H. reflexivity. Qed.

(** Lines 156-157: [default] is taken for an origin that is neither
    provider's. *)
Lemma handleCEP_respond_default w result :
  Err result = None ->
  Origem result <> "viacep" -> Origem result <> "brasilapi" ->
  handleCEP_respond w result =
    http.Error (http.Header_Set w "Content-Type" "application/json")
      "Erro interno: tipo inesperado de resposta"
      http.StatusInternalServerError.
Proof.
  intros He Hv Hb. unfold handleCEP_respond. rewrite He.
  destruct (String.eqb_spec (Origem result) "viacep"); [ contradiction | ].
  destruct (String.eqb_spec (Origem result) "brasilapi"); [ contradiction | ].
  reflexivity.
Qed.

(** Lines 138-155: a [case] whose type assertion fails writes nothing. *)
Lemma handleCEP_respond_mismatch w result :
  Err result = None ->
  (Origem result = "viacep" /\
   forall a, Data result <> anyAddressViaCep a) \/
  (Origem result = "brasilapi" /\
   forall a, Data result <> anyAddressBrasil a) ->
  handleCEP_respond w result =
    http.Header_Set w "Content-Type" "application/json".
Proof.
  intros He [[Ho Hd]|[Ho Hd]]; unfold handleCEP_respond; rewrite He, Ho; simpl;
    destruct (Data result) as [|a|a|r]; try reflexivity;
    exfalso; apply (Hd a); reflexivity.
Qed.

(** The deadline error is found in what [Do] returns, and is lost in what
    [fmt.Errorf] makes of it with [%v]. *)
Lemma errors_Is_urlError op url :
  errors.Is (urlError op url context.DeadlineExceeded)
    context.DeadlineExceeded = true.
Proof. reflexivity. Qed.

Lemma errors_Is_Errorf_v prefix err :
  errors.Is (fmt.Errorf_v prefix err) context.DeadlineExceeded = false.
Proof. reflexivity. Qed.

(** Lines 85-88 with lines 127-133: whatever error ends the reading of
    the body, the deadline error included, the handler answers 500. *)
Lemma read_failure_is_500 net ctx cep resp data err :
  answered net ctx ("https://viacep.com.br/ws/" +:+ cep +:+ "/json/") resp ->
  io.ReadAll (http.Body resp) = (data, Some err) ->
  http.status (handleCEP_respond http.NewResponseWriter (goViaCep net ctx cep))
    = Some http.StatusInternalServerError.
Proof.
  intros [req [Hreq Hdo]] Hread.
  unfold goViaCep, fetchFromViaCep. rewrite Hreq, Hdo, Hread. reflexivity.
Qed.

(** ** The status check of BrasilAPI (lines 51-53) *)

Lemma fetchFromBrasilAPI_status net ctx cep resp :
  answered net ctx ("https://brasilapi.com.br/api/cep/v1/" +:+ cep) resp ->
  http.StatusCode resp <> http.StatusOK ->
  fetchFromBrasilAPI net ctx cep =
    (AddressBrasil_zero,
     Some (errorString ("requisição falhou: " +:+ http.Status resp))).
Proof.
  intros [req [Hreq Hdo]] Hst. unfold fetchFromBrasilAPI. rewrite Hreq, Hdo.
  destruct (Z.eqb_spec (http.StatusCode resp) http.StatusOK);
    [ contradiction | reflexivity ].
Qed.

(** ** Keys that select no field *)

Lemma find_all_false {A} (f : A -> bool) (l : list A) :
  (forall x, In x l -> f x = false) -> List.find f l = None.
Proof.
  induction l as [|a l IH]; simpl; intros H; [ reflexivity | ].
  rewrite (H a) by auto. apply IH; auto.
Qed.

Lemma AddressViaCep_fields_tags f :
  In f AddressViaCep_fields -> In (json.tag f) ViaCep_tags.
Proof.
  unfold AddressViaCep_fields, ViaCep_tags; simpl.
  intuition (subst; simpl; tauto).
Qed.

Lemma find_field_ViaCep_none key :
  ~ names_ViaCep_field key -> json.find_field AddressViaCep_fields key = None.
Proof.
  unfold names_ViaCep_field, json.find_field. intros Hno.
  assert (Hfold : forall f, In f AddressViaCep_fields ->
            String.eqb (json.foldName (json.tag f)) (json.foldName key) = false).
  { intros f Hf. apply AddressViaCep_fields_tags in Hf.
    destruct (String.eqb_spec (json.foldName (json.tag f)) (json.foldName key))
      as [E|]; [ | reflexivity ].
    exfalso; apply Hno. rewrite <- E. apply in_map. exact Hf. }
  rewrite find_all_false.
  - apply find_all_false. exact Hfold.
  - intros f Hf.
    destruct (String.eqb_spec (json.tag f) key) as [E|]; [ | reflexivity ].
    specialize (Hfold f Hf). rewrite E, String.eqb_refl in Hfold. discriminate.
Qed.

(** [Unmarshal] of a valid text stores its value. *)
Lemma Unmarshal_parse {T} package struct (fields : list (json.field T))
    data v dst :
  json.parse data = Some v ->
  json.Unmarshal package struct fields data dst =
    json.store_value package struct fields v dst.
Proof.
  unfold json.parse, json.Unmarshal.
  destruct (json.scan data) as [v'|e]; intros H; inversion H; reflexivity.
Qed.

Lemma object_no_field {T} struct (fields : list (json.field T)) members dst
    saved :
  Forall (fun kv : string * json.value =>
            json.find_field fields (fst kv) = None) members ->
  json.object struct fields members dst saved = (dst, saved).
Proof.
  induction 1 as [|[k v] rest Hk _ IH]; simpl; [ reflexivity | ].
  simpl in Hk. rewrite Hk. exact IH.
Qed.

(** ** The scanner, run *)

Example scan_values :
  json.parse (quoted " {'cep': '01001-000', 'n': [1, -2.5e+3, null, false, {}]} ") =
    Some (json.Object
            [("cep", json.Str "01001-000");
             ("n", json.Array [json.Number "1"; json.Number "-2.5e+3"; json.Null;
                               json.Bool false; json.Object []])]) /\
  json.parse "12" = Some (json.Number "12") /\
  json.parse (quoted "'São 😀 \ud83d!'") =
    Some (json.Str "São 😀 �!").
Proof. repeat split; vm_compute; reflexivity. Qed.

Example scan_errors :
  complaint "" = "unexpected end of JSON input" /\
  complaint "[1,2" = "unexpected end of JSON input" /\
  complaint "<html>" = "invalid character '<' looking for beginning of value" /\
  complaint "{}x" = "invalid character 'x' after top-level value" /\
  complaint "[1 2]" = "invalid character '2' after array element" /\
  complaint "{1}" =
    "invalid character '1' looking for beginning of object key string" /\
  complaint (quoted "{'a' 1}") = "invalid character '1' after object key" /\
  complaint (quoted "{'a':1 2}") =
    "invalid character '2' after object key:value pair" /\
  complaint (quoted "'\x'") = "invalid character 'x' in string escape code" /\
  complaint "01" = "invalid character '1' after top-level value" /\
  complaint "1." =
    "invalid character ' ' after decimal point in numeric literal" /\
  complaint "nul" = "invalid character ' ' in literal null (expecting 'l')".
Proof. repeat split; vm_compute; reflexivity. Qed.

(** Arrays and objects may be nested 10000 deep and no deeper. *)
Example scan_depth :
  complaint (nested 10000) = "" /\
  complaint (nested 10001) = "invalid character '[' exceeded max depth".
Proof. split; vm_compute; reflexivity. Qed.

(** ** [strings.Split] and the guard of lines 100-104 *)

Lemma Split_cons s sep : exists p rest, strings.Split s sep = p :: rest.
Proof.
  induction s as [|c s [p [rest IH]]]; simpl; eauto.
  destruct (Ascii.eqb c sep); eauto. rewrite IH; eauto.
Qed.

Lemma Split_Join s sep : Join (strings.Split s sep) sep = s.
Proof.
  induction s as [|c s IH]; simpl; [ reflexivity | ].
  destruct (Ascii.eqb_spec c sep) as [->|Hc].
  - destruct (Split_cons s sep) as [p [rest E]]. rewrite E in *.
    simpl in *. rewrite IH. reflexivity.
  - destruct (Split_cons s sep) as [p [rest E]]. rewrite E in *.
    destruct rest; simpl in *; rewrite <- IH; reflexivity.
Qed.

Lemma Split_free s sep : Forall (free_of sep) (strings.Split s sep).
Proof.
  induction s as [|c s IH]; simpl.
  - constructor; [ intros [] | constructor ].
  - destruct (Ascii.eqb_spec c sep) as [->|Hc].
    + constructor; [ intros [] | exact IH ].
    + destruct (Split_cons s sep) as [p [rest E]]. rewrite E in *.
      inversion IH; subst. constructor; [ | assumption ].
      unfold free_of in *; simpl. intros [H|H]; [ congruence | contradiction ].
Qed.

Lemma Split_free_prefix a b sep :
  free_of sep a ->
  strings.Split (a +:+ String sep b) sep = a :: strings.Split b sep.
Proof.
  induction a as [|c a IH]; simpl; intros Hfree.
  - rewrite Ascii.eqb_refl. reflexivity.
  - destruct (Ascii.eqb_spec c sep) as [->|Hc].
    + exfalso; apply Hfree; simpl; auto.
    + rewrite IH; [ reflexivity | ].
      intros H; apply Hfree; simpl; auto.
Qed.

Lemma Split_free_whole a sep : free_of sep a -> strings.Split a sep = [a].
Proof.
  induction a as [|c a IH]; simpl; intros Hfree; [ reflexivity | ].
  destruct (Ascii.eqb_spec c sep) as [->|Hc].
  - exfalso; apply Hfree; simpl; auto.
  - rewrite IH; [ reflexivity | ]. intros H; apply Hfree; simpl; auto.
Qed.

(** On a rooted path the guard lets through the paths of two segments with
    a postal code, and no other. *)
Lemma handleCEP_cep_two_segments path :
  rooted path ->
  (two_segments path <-> handleCEP_cep path <> None).
Proof.
  intros [rest ->]. unfold handleCEP_cep. split.
  - intros [a [b [E [Ha [Hb Hne]]]]]. inversion E; subst rest.
    change (String "/"%char (a +:+ String "/"%char b))
      with ("" +:+ String "/"%char (a +:+ String "/"%char b)).
    rewrite Split_free_prefix by (intros []).
    rewrite Split_free_prefix by exact Ha.
    rewrite Split_free_whole by exact Hb. simpl.
    destruct (String.eqb_spec b ""); [ contradiction | discriminate ].
  - intros Hsome.
    pose proof (Split_Join (String "/"%char rest) "/"%char) as HJ.
    pose proof (Split_free (String "/"%char rest) "/"%char) as HF.
    destruct (strings.Split (String "/"%char rest) "/"%char)
      as [|p0 [|p1 [|p2 [|p3 parts]]]]; simpl in Hsome; try congruence.
    destruct (String.eqb_spec p2 "") as [|Hne]; simpl in Hsome;
      [ congruence | ].
    inversion HF as [|? ? H0 HF1]; subst.
    inversion HF1 as [|? ? H1 HF2]; subst.
    inversion HF2 as [|? ? H2 _]; subst.
    simpl in HJ. destruct p0 as [|c p0].
    + simpl in HJ. inversion HJ; subst. exists p1, p2. auto.
    + simpl in HJ. inversion HJ; subst. exfalso; apply H0; simpl; auto.
Qed.

(** ** Executions *)

Lemma run_app s a b :
  run s (a ++ b) =
    match run s a with
    | Some s1 => run s1 b
    | None => None
    end.
Proof.
  revert s; induction a as [|l a IH]; simpl; intros s; [ reflexivity | ].
  destruct (exec s l); [ apply IH | reflexivity ].
Qed.

Lemma reachable_run path s schedule s' :
  reachable path s -> run s schedule = Some s' -> reachable path s'.
Proof.
  intros [before Hb] Hrun. exists (before ++ schedule).
  rewrite run_app, Hb. exact Hrun.
Qed.

Lemma reachable_after path schedule :
  run (init path) schedule <> None -> reachable path (after path schedule).
Proof.
  unfold after, reachable. intros H. exists schedule.
  destruct (run (init path) schedule); [ reflexivity | contradiction ].
Defined.

Lemma answers_answered code status body ctx url :
  answered (answers code status body) ctx url
    {| http.StatusCode := code; http.Status := status; http.Body := body |}.
Proof. eexists. split; reflexivity. Defined.

(** Once the handler has returned, nothing moves it. *)
Lemma Returned_exec s l s' r :
  handler s = Returned r -> exec s l = Some s' -> handler s' = Returned r.
Proof.
  intros Hh. destruct l; simpl.
  - unfold step_handler. rewrite Hh. discriminate.
  - unfold step_fetch. destruct (goroutine_of o s), (ctx s); try discriminate.
    intros E; inversion E; subst; exact Hh.
  - unfold step_send.
    destruct (goroutine_of o s), (resChan s); try discriminate.
    destruct (_ <? _)%nat; try discriminate.
    intros E; inversion E; subst; exact Hh.
  - unfold step_expire. destruct (ctx s), (ctx_err s); try discriminate.
    intros E; inversion E; subst; exact Hh.
Qed.

Lemma Returned_run schedule : forall s s' r,
  handler s = Returned r -> run s schedule = Some s' -> handler s' = Returned r.
Proof.
  induction schedule as [|l rest IH]; simpl; intros s s' r Hh Hrun.
  - inversion Hrun; subst; exact Hh.
  - destruct (exec s l) as [s1|] eqn:E; [ | discriminate ].
    eauto using Returned_exec.
Qed.

(** A raced request that has returned had received a message. *)
Lemma Returned_raced path s rcv :
  invariant path s -> handler s = Returned rcv ->
  handleCEP_cep path <> None -> exists m, rcv = Some m.
Proof.
  intros Hinv Hh Hraced. pose proof (inv_path _ _ Hinv) as Hp.
  rewrite Hh in Hp. destruct rcv as [m|]; [ eauto | contradiction ].
Qed.

(** ** The channel is never full when a goroutine sends *)

Lemma delivered_length l :
  length (delivered l) =
    (length (delivered_by BrasilAPI l) + length (delivered_by ViaCep l))%nat.
Proof.
  unfold delivered, delivered_by. rewrite !length_map.
  induction (deliveries l) as [|[[] m] ds IH]; simpl in *; lia.
Qed.

Lemma goroutine_ok_length o g l :
  goroutine_ok o g l ->
  (length (delivered_by o l) <= 1)%nat /\
  (g = Exited <-> length (delivered_by o l) = 1%nat).
Proof.
  destruct g; simpl.
  - intros ->; simpl; split; [ lia | split; discriminate ].
  - intros ->; simpl; split; [ lia | split; discriminate ].
  - intros [-> _]; simpl; split; [ lia | split; discriminate ].
  - intros [m [-> _]]; simpl; split; [ lia | split; reflexivity ].
Qed.

Lemma delivered_by_bound path s o :
  invariant path s ->
  (length (delivered_by o (log s)) <= 1)%nat /\
  (goroutine_of o s = Exited <-> length (delivered_by o (log s)) = 1%nat).
Proof. intros Hinv. apply goroutine_ok_length, (inv_goroutine _ _ Hinv). Qed.

Lemma queue_bound path s ch :
  invariant path s -> resChan s = Some ch ->
  capacity ch = 2%nat /\
  (length (taken (handler s)) + length (queue ch) =
   length (delivered_by BrasilAPI (log s)) +
   length (delivered_by ViaCep (log s)))%nat.
Proof.
  intros Hinv Hch. pose proof (inv_chan _ _ Hinv) as H.
  destruct (has_chan (handler s)).
  - destruct H as [q [E Hdel]]. rewrite Hch in E. inversion E; subst; simpl.
    split; [ reflexivity | ].
    rewrite <- delivered_length, Hdel, length_app. reflexivity.
  - destruct H as [E _]. congruence.
Qed.

Lemma started_has_chan o p : started o p = true -> has_chan p = true.
Proof. destruct p as [| | | | | | | |[]], o; simpl; auto. Qed.

Lemma started_has_ctx o p : started o p = true -> has_ctx p = true.
Proof. destruct p as [| | | | | | | |[]], o; simpl; auto. Qed.

(** A goroutine that was started has the channel and the context. *)
Lemma running_has_chan path s o :
  invariant path s -> goroutine_of o s <> NotStarted ->
  (exists q, resChan s = Some {| capacity := 2; queue := q |}) /\
  ctx s = Some (context.WithTimeout (1 * time.Second)).
Proof.
  intros Hinv Hrun.
  assert (Hs : started o (handler s) = true).
  { destruct (started o (handler s)) eqn:E; [ reflexivity | ].
    apply (inv_started _ _ Hinv) in E. contradiction. }
  pose proof (inv_chan _ _ Hinv) as Hch. pose proof (inv_ctx _ _ Hinv) as Hctx.
  rewrite (started_has_chan _ _ Hs) in Hch.
  rewrite (started_has_ctx _ _ Hs) in Hctx.
  destruct Hch as [q [E _]]. eauto.
Qed.

Lemma fetch_enabled path s o cep net :
  invariant path s -> goroutine_of o s = Fetching cep ->
  exists s' m, exec s (Fetch o net) = Some s' /\ goroutine_of o s' = Sending m.
Proof.
  intros Hinv Hf.
  destruct (running_has_chan path s o Hinv) as [_ Hctx]; [ congruence | ].
  simpl. unfold step_fetch. rewrite Hf, Hctx.
  eexists _, _. split; [ reflexivity | ]. destruct o; reflexivity.
Qed.

(** The send of a goroutine finds room: the other goroutine has delivered
    one message at most, and this one none. *)
Lemma send_enabled path s o m :
  invariant path s -> goroutine_of o s = Sending m ->
  exists s', exec s (Send o) = Some s' /\
             goroutine_of o s' = Exited /\
             delivered_by o (log s') = [m].
Proof.
  intros Hinv Hs.
  destruct (running_has_chan path s o Hinv) as [[q Hch] _]; [ congruence | ].
  destruct (queue_bound _ _ _ Hinv Hch) as [_ Hq]. simpl in Hq.
  pose proof (inv_goroutine _ _ Hinv o) as Ho. rewrite Hs in Ho.
  destruct Ho as [Hnone _].
  pose proof (proj1 (delivered_by_bound path s (other o) Hinv)) as Hother.
  assert (Hroom : (length q <? 2)%nat = true).
  { apply Nat.ltb_lt.
    destruct o; simpl in *; rewrite Hnone in Hq; simpl in Hq; lia. }
  simpl. unfold step_send. rewrite Hs, Hch. simpl. rewrite Hroom.
  eexists. split; [ reflexivity | ].
  split; [ destruct o; reflexivity | ].
  simpl. rewrite delivered_by_app, Hnone. simpl.
  destruct o; reflexivity.
Qed.

(** ** Every request runs to its end *)

Lemma finished_dec s : finished s \/ ~ finished s.
Proof.
  unfold finished, at_rest.
  destruct (handler s), (brasilapi s), (viacep s);
    first [ left; solve [ intuition eauto ]
          | right; intros [[r E] [[E1|E1] [E2|E2]]]; discriminate ].
Qed.

(** While a task is left, some task can take a step, and the step brings
    the end nearer: nothing waits for ever. *)
Lemma progress (net : http.Network) path s :
  reachable path s -> ~ finished s ->
  exists l s', exec s l = Some s' /\ (steps_left s' < steps_left s)%nat.
Proof.
  intros Hreach Hnot.
  pose proof (invariant_reachable _ _ Hreach) as Hinv.
  destruct (brasilapi s) as [|cep|m|] eqn:Hb.
  3: { destruct (send_enabled path s BrasilAPI m Hinv Hb) as [s' [E _]].
       exists (Send BrasilAPI), s'. split; [ exact E | ].
       simpl in E. unfold step_send in E. simpl in E. rewrite Hb in E.
       destruct (resChan s); [ | discriminate ].
       destruct (_ <? _)%nat; inversion E; subst; clear E.
       unfold steps_left; simpl. rewrite Hb; simpl. lia. }
  2: { destruct (fetch_enabled path s BrasilAPI cep net Hinv Hb)
         as [s' [m [E _]]].
       exists (Fetch BrasilAPI net), s'. split; [ exact E | ].
       simpl in E. unfold step_fetch in E. simpl in E. rewrite Hb in E.
       destruct (ctx s); inversion E; subst; clear E.
       unfold steps_left; simpl. rewrite Hb; simpl. lia. }
  all: destruct (viacep s) as [|cep|m|] eqn:Hv.
  all: try match goal with
       | Hv : viacep _ = Sending ?m |- _ =>
           destruct (send_enabled path s ViaCep m Hinv Hv) as [s' [E _]];
           exists (Send ViaCep), s'; split; [ exact E | ];
           simpl in E; unfold step_send in E; simpl in E; rewrite Hv in E;
           (destruct (resChan s); [ | discriminate ]);
           destruct (_ <? _)%nat; inversion E; subst; clear E;
           unfold steps_left; simpl; rewrite Hb, Hv; simpl; lia
       | Hv : viacep _ = Fetching ?cep |- _ =>
           destruct (fetch_enabled path s ViaCep cep net Hinv Hv)
             as [s' [m [E _]]];
           exists (Fetch ViaCep net), s'; split; [ exact E | ];
           simpl in E; unfold step_fetch in E; simpl in E; rewrite Hv in E;
           destruct (ctx s); inversion E; subst; clear E;
           unfold steps_left; simpl; rewrite Hb, Hv; simpl; lia
       end.
  all: exists Handler; simpl; unfold step_handler.
  all: pose proof (inv_started _ _ Hinv BrasilAPI) as HsB;
       pose proof (inv_started _ _ Hinv ViaCep) as HsV;
       pose proof (inv_chan _ _ Hinv) as Hch;
       simpl in HsB, HsV; rewrite Hb in HsB; rewrite Hv in HsV.
  all: destruct (handler s) as [p|cep|cep|cep|cep| |m|m|r] eqn:Hh; simpl in *.
  all: try solve [ exfalso; apply Hnot; unfold finished, at_rest;
                   rewrite Hh, Hb, Hv; intuition eauto ].
  all: try solve [ exfalso; destruct HsB as [HsB _]; specialize (HsB eq_refl);
                   discriminate ].
  all: try solve [ exfalso; destruct HsB as [_ HsB]; specialize (HsB eq_refl);
                   discriminate ].
  all: try solve [ exfalso; destruct HsV as [HsV _]; specialize (HsV eq_refl);
                   discriminate ].
  all: try solve [ exfalso; destruct HsV as [_ HsV]; specialize (HsV eq_refl);
                   discriminate ].
  all: try solve [ destruct (handleCEP_cep p); eexists;
                   (split; [ reflexivity | ]);
                   unfold steps_left; simpl; rewrite Hh, Hb, Hv; simpl; lia ].
  all: try solve [ eexists; (split; [ reflexivity | ]);
                   unfold steps_left, cancel; simpl;
                   try destruct (ctx_err s); simpl;
                   rewrite ?Hh, ?Hb, ?Hv; simpl; lia ].
  (* the receive: both goroutines are done, so two messages were delivered *)
  destruct Hch as [q [Hch Hdel]].
  pose proof (f_equal (@length _) Hdel) as Hl.
  rewrite delivered_length in Hl.
  pose proof (proj1 (proj2 (delivered_by_bound path s BrasilAPI Hinv)) Hb) as HB.
  pose proof (proj1 (proj2 (delivered_by_bound path s ViaCep Hinv)) Hv) as HV.
  rewrite HB, HV in Hl. rewrite Hch.
  destruct q as [|m rest]; simpl in Hl; [ discriminate | ].
  eexists; split; [ reflexivity | ].
  unfold steps_left; simpl. rewrite Hh, Hb, Hv; simpl; lia.
Qed.

(** From every state of every execution, whatever the network answers,
    the handler can return and both goroutines can exit. *)
Lemma race_completes (net : http.Network) path s :
  reachable path s ->
  exists schedule s', run s schedule = Some s' /\ finished s'.
Proof.
  remember (steps_left s) as n eqn:Hn.
  assert (Hle : (steps_left s <= n)%nat) by lia. clear Hn.
  revert s Hle. induction n as [|n IH]; intros s Hle Hreach;
    (destruct (finished_dec s) as [F|F];
     [ exists [], s; split; [ reflexivity | exact F ] | ]);
    destruct (progress net path s Hreach F) as [l [s1 [E Hlt]]]; [ lia | ].
  destruct (IH s1) as [schedule [s' [Hrun Hfin]]]; [ lia | | ].
  - apply (reachable_run path s [l]); [ exact Hreach | ].
    simpl. rewrite E. reflexivity.
  - exists (l :: schedule), s'. simpl. rewrite E. auto.
Qed.

(** ** The handler's own events *)

Lemma program_order_prefix p m :
  taken p = [] \/ taken p = [m] ->
  program_order p `prefix_of` raced_order m \/ p = Returned None.
Proof.
  unfold raced_order.
  destruct p as [| | | | | | m' | m' | [m'|]]; simpl; intros [E|E];
    try discriminate; try (inversion E; subst m');
    first [ right; reflexivity | left; eexists; reflexivity ].
Qed.

(** ** What a goroutine sends on success *)

Lemma from_upstream_success o m :
  from_upstream o m -> Err m = None ->
  match o with
  | BrasilAPI =>
      exists a, m = {| Origem := "brasilapi"; Data := anyAddressBrasil a;
                       Err := None |}
  | ViaCep =>
      exists a, m = {| Origem := "viacep"; Data := anyAddressViaCep a;
                       Err := None |}
  end.
Proof.
  intros [net [c [cep ->]]]. destruct o; simpl.
  - unfold goBrasilAPI.
    destruct (fetchFromBrasilAPI net c cep) as [a [e|]]; simpl;
      [ discriminate | eauto ].
  - unfold goViaCep.
    destruct (fetchFromViaCep net c cep) as [a [e|]]; simpl;
      [ discriminate | eauto ].
Qed.

(** ** The message the handler answers *)

Lemma origin_eqb_refl o : origin_eqb o o = true.
Proof. destruct o; reflexivity. Qed.

(** The message the handler holds is the first that was delivered, and a
    goroutine built it. *)
Lemma received_message_is_first path s m :
  invariant path s -> taken (handler s) = [m] ->
  exists o rest, deliveries (log s) = (o, m) :: rest /\ from_upstream o m.
Proof.
  intros Hinv Ht. pose proof (inv_chan _ _ Hinv) as Hch.
  pose proof (inv_deliveries _ _ Hinv) as Hd.
  assert (Hhas : has_chan (handler s) = true).
  { destruct (handler s) as [| | | | | | | |[]]; simpl in *;
      try discriminate; reflexivity. }
  rewrite Hhas, Ht in Hch. destruct Hch as [q [_ Hdel]].
  unfold delivered in Hdel.
  destruct (deliveries (log s)) as [|[o m'] rest]; [ discriminate | ].
  simpl in Hdel. inversion Hdel; subst m'.
  inversion Hd; subst. eauto.
Qed.

Lemma http_Error_plain_text msg code :
  plain_text (http.Error http.NewResponseWriter msg code) code.
Proof.
  split; [ apply http_Error_status; reflexivity | ].
  split; [ apply http_Error_content_type | ].
  exists msg. rewrite http_Error_body. reflexivity.
Qed.

Lemma respond_from_upstream o m :
  from_upstream o m ->
  let w := handleCEP_respond http.NewResponseWriter m in
  json_ok w \/ plain_text w http.StatusRequestTimeout \/
  plain_text w http.StatusInternalServerError.
Proof.
  intros Hup w. subst w. destruct (Err m) as [err|] eqn:He.
  - rewrite (handleCEP_respond_failure _ _ _ He).
    destruct (errors.Is err context.DeadlineExceeded);
      [ right; left | right; right ]; apply http_Error_plain_text.
  - left. pose proof (from_upstream_success _ _ Hup He) as Hm.
    destruct o; destruct Hm as [a ->];
      (split; [ reflexivity | split; [ reflexivity | eexists; reflexivity ] ]).
Qed.


(** * The claims *)

(** C1.  In every execution of a raced request in which the handler has
    returned, the handler took exactly one message from the channel, the
    first one delivered, whoever sent it and whatever it says; what it
    wrote is [handleCEP_respond] of that message alone; a first message
    that is a failure gives a 408 or a 500, never a success; and nothing
    that happens afterwards, the loser's delivery included, changes the
    response. *)
Theorem first_message_decides path s rcv :
  reachable path s ->
  handleCEP_cep path <> None ->
  handler s = Returned rcv ->
  exists o m rest,
    deliveries (log s) = (o, m) :: rest /\
    received (log s) = [m] /\
    w s = handleCEP_respond http.NewResponseWriter m /\
    (forall err, Err m = Some err ->
       http.status (w s) = Some http.StatusRequestTimeout \/
       http.status (w s) = Some http.StatusInternalServerError) /\
    (forall schedule s',
       run s schedule = Some s' -> w s' = w s /\ received (log s') = [m]).
Proof.
  intros Hreach Hraced Hh.
  pose proof (invariant_reachable _ _ Hreach) as Hinv.
  destruct (Returned_raced _ _ _ Hinv Hh Hraced) as [m ->].
  pose proof (inv_chan _ _ Hinv) as Hch.
  pose proof (inv_received _ _ Hinv) as Hrcv.
  pose proof (inv_w _ _ Hinv) as Hw.
  rewrite Hh in *; simpl in *.
  destruct Hch as [q [_ Hdel]]. unfold delivered in Hdel.
  destruct (deliveries (log s)) as [|[o m'] rest] eqn:E; [ discriminate | ].
  simpl in Hdel. inversion Hdel; subst m'.
  exists o, m, rest.
  split; [ reflexivity | split; [ exact Hrcv | split; [ exact Hw | split ] ] ].
  - intros err Herr. rewrite Hw, (handleCEP_respond_failure _ _ _ Herr).
    destruct (errors.Is err context.DeadlineExceeded);
      rewrite http_Error_status by reflexivity; auto.
  - intros schedule s' Hrun.
    pose proof (Returned_run _ _ _ _ Hh Hrun) as Hh'.
    pose proof (invariant_reachable _ _ (reachable_run _ _ _ _ Hreach Hrun))
      as Hinv'.
    rewrite (inv_w _ _ Hinv'), (inv_received _ _ Hinv'), Hh', Hw.
    split; reflexivity.
Qed.

Lemma first_message_decides_witness :
  let s := after "/cep/01001000" failure_first in
  reachable "/cep/01001000" s /\
  handleCEP_cep "/cep/01001000" <> None /\
  handler s = Returned (Some (goBrasilAPI unavailable race_ctx "01001000")) /\
  exists o m rest,
    deliveries (log s) = (o, m) :: rest /\
    w s = handleCEP_respond http.NewResponseWriter m.
Proof.
  intros s.
  assert (H1 : reachable "/cep/01001000" s)
    by (apply reachable_after; vm_compute; discriminate).
  assert (H2 : handleCEP_cep "/cep/01001000" <> None)
    by (vm_compute; discriminate).
  assert (H3 : handler s =
               Returned (Some (goBrasilAPI unavailable race_ctx "01001000")))
    by (vm_compute; reflexivity).
  refine (conj H1 (conj H2 (conj H3 _))).
  destruct (first_message_decides _ _ _ H1 H2 H3)
    as [o [m [rest [Hd [_ [Hw _]]]]]].
  exists o, m, rest. split; assumption.
Defined.

(** C2.  [fetchFromViaCep] does not look at the status of the response: a
    503 whose body is a JSON object comes back as a success, and the
    handler answers 200.  [fetchFromBrasilAPI] returns the error with the
    status for the same response (lines 51-53). *)
Theorem fetchFromViaCep_ignores_status :
  let net :=
    answers 503 "503 Service Unavailable" (complete (quoted "{'erro': true}")) in
  fetchFromViaCep net race_ctx "01001000" = (AddressViaCep_zero, None) /\
  fetchFromBrasilAPI net race_ctx "01001000" =
    (AddressBrasil_zero,
     Some (errorString "requisição falhou: 503 Service Unavailable")) /\
  http.status (handleCEP_respond http.NewResponseWriter
                 (goViaCep net race_ctx "01001000")) = Some http.StatusOK.
Proof. repeat split; vm_compute; reflexivity. Qed.

(** C3.  When the deadline passes while the body of a response is read,
    [io.ReadAll] returns the deadline error, the client wraps its text
    with [%v], [errors.Is] no longer finds it, and the handler answers
    500 with the text of the error, not 408.  Both clients do so. *)
Theorem deadline_while_reading_body :
  let net := answers 200 "200 OK" (broken "" context.DeadlineExceeded) in
  let m := goViaCep net race_ctx "01001000" in
  let w := handleCEP_respond http.NewResponseWriter m in
  Err m =
    Some (errorString "error reading response: context deadline exceeded") /\
  http.status w = Some http.StatusInternalServerError /\
  http.body w =
    [http.Text ("Erro: error reading response: context deadline exceeded"
                +:+ newline)] /\
  Err (goBrasilAPI net race_ctx "01001000") = Err m.
Proof. repeat split; vm_compute; reflexivity. Qed.




(** C5.  In every state of every execution: the channel has capacity two
    and never holds more; each goroutine has delivered one message at
    most, and exactly one once it has exited; a goroutine that runs its
    client can finish it and a goroutine that sends is never blocked,
    wherever the handler stands, also after it has returned; when all
    three have finished, the loser's message lies unread in the channel;
    and from every state all three can finish, so no goroutine is left
    behind. *)
Theorem rendezvous_never_blocks path s :
  reachable path s ->
  (forall ch, resChan s = Some ch ->
     capacity ch = 2%nat /\ (length (queue ch) <= 2)%nat) /\
  (forall o,
     (length (delivered_by o (log s)) <= 1)%nat /\
     (goroutine_of o s = Exited <-> length (delivered_by o (log s)) = 1%nat)) /\
  (forall o cep net,
     goroutine_of o s = Fetching cep ->
     exists s' m, exec s (Fetch o net) = Some s' /\
                  goroutine_of o s' = Sending m) /\
  (forall o m,
     goroutine_of o s = Sending m ->
     exists s', exec s (Send o) = Some s' /\
                goroutine_of o s' = Exited /\
                delivered_by o (log s') = [m]) /\
  (forall rcv,
     handler s = Returned rcv ->
     brasilapi s = Exited -> viacep s = Exited ->
     exists m late,
       rcv = Some m /\ delivered (log s) = [m; late] /\
       resChan s = Some {| capacity := 2; queue := [late] |}) /\
  (forall net : http.Network,
     exists schedule s', run s schedule = Some s' /\ finished s').
Proof.
  intros Hreach. pose proof (invariant_reachable _ _ Hreach) as Hinv.
  split; [ | split; [ | split; [ | split; [ | split ] ] ] ].
  - intros ch Hch. destruct (queue_bound _ _ _ Hinv Hch) as [Hcap Hq].
    pose proof (proj1 (delivered_by_bound path s BrasilAPI Hinv)).
    pose proof (proj1 (delivered_by_bound path s ViaCep Hinv)).
    split; [ exact Hcap | lia ].
  - intros o. apply (delivered_by_bound path s o Hinv).
  - intros o cep net. apply (fetch_enabled path s o cep net Hinv).
  - intros o m. apply (send_enabled path s o m Hinv).
  - intros rcv Hh Hb Hv.
    pose proof (inv_chan _ _ Hinv) as Hch.
    pose proof (inv_started _ _ Hinv) as Hst.
    rewrite Hh in *.
    destruct rcv as [m|].
    + simpl in Hch. destruct Hch as [q [Hch Hdel]].
      pose proof (f_equal (@length _) Hdel) as Hl.
      rewrite delivered_length in Hl.
      rewrite (proj1 (proj2 (delivered_by_bound path s BrasilAPI Hinv)) Hb),
        (proj1 (proj2 (delivered_by_bound path s ViaCep Hinv)) Hv) in Hl.
      simpl in Hl.
      destruct q as [|late [|x q]]; simpl in Hl; try lia.
      exists m, late. auto.
    + exfalso. pose proof (proj2 (Hst BrasilAPI) eq_refl) as X.
      simpl in X. congruence.
  - intros net. apply (race_completes net path s Hreach).
Qed.

Lemma rendezvous_never_blocks_witness :
  let s := after "/cep/01001000" loser_pending in
  reachable "/cep/01001000" s /\
  handler s =
    Returned (Some (goBrasilAPI unavailable race_ctx "01001000")) /\
  viacep s = Sending (goViaCep found_by_ViaCep race_ctx "01001000") /\
  exists s', exec s (Send ViaCep) = Some s' /\ viacep s' = Exited.
Proof.
  intros s.
  assert (H1 : reachable "/cep/01001000" s)
    by (apply reachable_after; vm_compute; discriminate).
  assert (H2 : viacep s =
               Sending (goViaCep found_by_ViaCep race_ctx "01001000"))
    by (vm_compute; reflexivity).
  assert (H3 : handler s =
               Returned (Some (goBrasilAPI unavailable race_ctx "01001000")))
    by (vm_compute; reflexivity).
  refine (conj H1 (conj H3 (conj H2 _))).
  destruct (rendezvous_never_blocks _ _ H1) as [_ [_ [_ [Hsend _]]]].
  destruct (Hsend ViaCep _ H2) as [s' [E [Hg _]]].
  exists s'. split; assumption.
Defined.

(** C6.  In every execution of a raced request the handler's own events
    are, in this order: the context with a deadline of one second, the
    channel, the two [go] statements, the receive, one call of [cancel],
    the response.  At every moment they are a prefix of that list, so
    [cancel] is never called before the receive nor after the response,
    and never twice; when the handler has returned, whatever it answered,
    they are the whole list and the context is done. *)
Theorem cancel_once_after_receive path s :
  reachable path s ->
  handleCEP_cep path <> None ->
  (exists m, handler_events (log s) `prefix_of` raced_order m) /\
  (forall rcv,
     handler s = Returned rcv ->
     exists m,
       rcv = Some m /\
       handler_events (log s) = raced_order m /\
       ctx s = Some (context.WithTimeout (1 * time.Second)) /\
       ctx_err s <> None).
Proof.
  intros Hreach Hraced. pose proof (invariant_reachable _ _ Hreach) as Hinv.
  pose proof (inv_order _ _ Hinv) as Hord.
  split.
  - pose proof (inv_path _ _ Hinv) as Hp.
    set (dummy := {| Origem := ""; Data := anyNil; Err := None |}).
    assert (Hm : exists m, taken (handler s) = [] \/ taken (handler s) = [m]).
    { destruct (handler s) as [| | | | | | m | m | [m|]]; simpl;
        first [ exists m; auto | exists dummy; auto ]. }
    destruct Hm as [m Hm]. exists m. rewrite Hord.
    destruct (program_order_prefix _ _ Hm) as [H|H]; [ exact H | ].
    rewrite H in Hp. contradiction.
  - intros rcv Hh.
    destruct (Returned_raced _ _ _ Hinv Hh Hraced) as [m ->].
    exists m. rewrite Hord, (inv_ctx _ _ Hinv), Hh. simpl.
    split; [ reflexivity | split; [ reflexivity | split; [ reflexivity | ] ] ].
    apply (inv_ctx_err _ _ Hinv). rewrite Hh. reflexivity.
Qed.

Lemma cancel_once_after_receive_witness :
  let s := after "/cep/01001000" failure_first in
  reachable "/cep/01001000" s /\
  handleCEP_cep "/cep/01001000" <> None /\
  exists m, handler_events (log s) `prefix_of` raced_order m.
Proof.
  intros s.
  assert (H1 : reachable "/cep/01001000" s)
    by (apply reachable_after; vm_compute; discriminate).
  assert (H2 : handleCEP_cep "/cep/01001000" <> None)
    by (vm_compute; discriminate).
  refine (conj H1 (conj H2 _)).
  apply (cancel_once_after_receive _ _ H1 H2).
Defined.

(** C7.  For a rooted path that does not have exactly two segments with a
    postal code in the second, the handler's first step answers 400 with
    the usage text and returns; in every state of every execution of such
    a request there is no context, no channel, no goroutine was started
    and no upstream client has run. *)
Theorem malformed_path_is_refused path s :
  rooted path ->
  ~ two_segments path ->
  reachable path s ->
  (exists s', exec (init path) Handler = Some s' /\ handler s' = Returned None) /\
  (s = init path \/
   handler s = Returned None /\
   http.status (w s) = Some http.StatusBadRequest /\
   http.body (w s) = [http.Text ("Uso correto: /cep/{cep}" +:+ newline)] /\
   log s = [EvBadRequest]) /\
  ctx s = None /\ resChan s = None /\
  brasilapi s = NotStarted /\ viacep s = NotStarted /\
  fetches (log s) = 0%nat.
Proof.
  intros Hroot Hbad Hreach. pose proof (invariant_reachable _ _ Hreach) as Hinv.
  assert (Hcep : handleCEP_cep path = None).
  { destruct (handleCEP_cep path) eqn:E; [ | reflexivity ].
    exfalso; apply Hbad. apply handleCEP_cep_two_segments; congruence. }
  destruct Hinv as [Hpath Hord Hq Hw Hctx [Hce _] Hch Hrcv Hst Hg Hf Hd].
  assert (Hh : handler s = AtSplit path \/ handler s = Returned None).
  { destruct (handler s) as [| | | | | | | |[]]; try contradiction;
      subst; auto. }
  assert (Hquiet : has_ctx (handler s) = false /\
                   has_chan (handler s) = false /\
                   forall o, started o (handler s) = false).
  { destruct Hh as [-> | ->]; simpl; auto. }
  destruct Hquiet as [Hc [Hn Hs]].
  rewrite Hc in Hctx. rewrite Hn in Hch. destruct Hch as [Hch _].
  pose proof (proj2 (Hst BrasilAPI) (Hs _)) as Hb.
  pose proof (proj2 (Hst ViaCep) (Hs _)) as Hv. simpl in Hb, Hv.
  specialize (Hq Hc). specialize (Hce Hctx).
  split; [ | split ].
  - simpl. unfold step_handler. simpl. rewrite Hcep.
    eexists; split; reflexivity.
  - destruct Hh as [Hh | Hh]; rewrite Hh in *; simpl in *.
    + left. destruct s; simpl in *; subst. reflexivity.
    + right. rewrite Hw. repeat split; auto.
  - rewrite Hf, Hb, Hv. auto.
Qed.

Lemma malformed_path_is_refused_witness :
  let s := after "/cep/" [Handler] in
  rooted "/cep/" /\ ~ two_segments "/cep/" /\ reachable "/cep/" s /\
  ctx s = None /\ fetches (log s) = 0%nat.
Proof.
  intros s.
  assert (H1 : rooted "/cep/") by (eexists; reflexivity).
  assert (H2 : ~ two_segments "/cep/").
  { intros H. apply (handleCEP_cep_two_segments _ H1) in H.
    apply H. vm_compute. reflexivity. }
  assert (H3 : reachable "/cep/" s)
    by (apply reachable_after; vm_compute; discriminate).
  destruct (malformed_path_is_refused _ _ H1 H2 H3)
    as [_ [_ [Hctx [_ [_ [_ Hfetches]]]]]].
  exact (conj H1 (conj H2 (conj H3 (conj Hctx Hfetches)))).
Defined.

(** C8.  In every execution in which the handler has returned and the
    first message delivered was a success of provider [o], the response is
    200 with [Content-Type: application/json], and its body is the
    envelope whose [origem] is the name of [o] and whose [data] has the
    address shape of [o]: an object of the five members of [o], in the
    order of its struct, each a string, and these strings are the fields
    of the address in that message as [encoding/json] writes them. *)
Theorem success_envelope path s rcv o m rest :
  reachable path s ->
  handler s = Returned rcv ->
  deliveries (log s) = (o, m) :: rest ->
  Err m = None ->
  http.status (w s) = Some http.StatusOK /\
  http.Header (w s) !! "Content-Type" = Some "application/json" /\
  exists data,
    address_shape o data /\
    data =
      address_object o
        (map utf8.replace_ill_formed (address_texts (Data m))) /\
    http.body (w s) =
      [http.Encoded
         (json.Object [("origem", json.Str (origem o)); ("data", data)])].
Proof.
  intros Hreach Hh Hdel Hok. pose proof (invariant_reachable _ _ Hreach) as Hinv.
  pose proof (inv_chan _ _ Hinv) as Hch. pose proof (inv_w _ _ Hinv) as Hw.
  pose proof (inv_deliveries _ _ Hinv) as Hd.
  rewrite Hh in *. unfold delivered in Hch. rewrite Hdel in *.
  inversion Hd as [|? ? Hup _]; subst. simpl in Hup.
  destruct rcv as [m'|]; simpl in Hch;
    [ destruct Hch as [q [_ E]]; inversion E; subst m'
    | destruct Hch; discriminate ].
  simpl in Hw. rewrite Hw.
  pose proof (from_upstream_success _ _ Hup Hok) as Hm.
  destruct o; destruct Hm as [a ->];
    (split; [ reflexivity | split; [ reflexivity | ] ]);
    eexists; (split; [ | split; reflexivity ]);
    eexists; (split; [ | reflexivity ]); reflexivity.
Qed.

Lemma success_envelope_witness :
  let s := after "/cep/01001000" ViaCep_first in
  let m := goViaCep found_by_ViaCep race_ctx "01001000" in
  reachable "/cep/01001000" s /\
  handler s = Returned (Some m) /\
  deliveries (log s) =
    [(ViaCep, m);
     (BrasilAPI, goBrasilAPI found_by_BrasilAPI race_ctx "01001000")] /\
  Err m = None /\
  http.status (w s) = Some http.StatusOK.
Proof.
  intros s m.
  assert (H1 : reachable "/cep/01001000" s)
    by (apply reachable_after; vm_compute; discriminate).
  assert (H2 : handler s = Returned (Some m)) by (vm_compute; reflexivity).
  assert (H3 : deliveries (log s) =
            [(ViaCep, m);
             (BrasilAPI, goBrasilAPI found_by_BrasilAPI race_ctx "01001000")])
    by (vm_compute; reflexivity).
  assert (H4 : Err m = None) by (vm_compute; reflexivity).
  refine (conj H1 (conj H2 (conj H3 (conj H4 _)))).
  apply (success_envelope _ _ _ _ _ _ H1 H2 H3 H4).
Defined.

(** The scenario of the specification: ViaCep answers first with the
    address of the Praça da Sé. *)
Example scenario_first_success :
  http.body (w (after "/cep/01001000" ViaCep_first)) =
    [http.Encoded
       (json.Object
          [("origem", json.Str "viacep");
           ("data",
            json.Object
              [("cep", json.Str "01001-000"); ("uf", json.Str "SP");
               ("localidade", json.Str "São Paulo");
               ("bairro", json.Str "Sé");
               ("logradouro", json.Str "Praça da Sé")])])].
Proof. vm_compute. reflexivity. Qed.

(** C9.  When the body of a response was read in full and
    [json.Unmarshal] returns an error for it, [fetchFromViaCep] returns
    the zero address and an error that carries the text of that error, and
    so does [fetchFromBrasilAPI] for a response with status 200; for any
    other status [fetchFromBrasilAPI] returns an error as well.  Neither
    returns a success. *)
Theorem decode_failure_is_an_error net ctx cep resp body :
  io.ReadAll (http.Body resp) = (body, None) ->
  (answered net ctx ("https://viacep.com.br/ws/" +:+ cep +:+ "/json/") resp ->
   forall a err,
     Unmarshal_AddressViaCep body AddressViaCep_zero = (a, Some err) ->
     fetchFromViaCep net ctx cep =
       (AddressViaCep_zero,
        Some (errorString ("error reading response: " +:+ Error err)))) /\
  (answered net ctx ("https://brasilapi.com.br/api/cep/v1/" +:+ cep) resp ->
   forall a err,
     Unmarshal_AddressBrasil body AddressBrasil_zero = (a, Some err) ->
     (exists e, fetchFromBrasilAPI net ctx cep = (AddressBrasil_zero, Some e)) /\
     (http.StatusCode resp = http.StatusOK ->
      fetchFromBrasilAPI net ctx cep =
        (AddressBrasil_zero,
         Some (errorString ("error reading response: " +:+ Error err))))).
Proof.
  intros Hread. split.
  - intros [req [Hreq Hdo]] a err Hdec.
    unfold fetchFromViaCep. rewrite Hreq, Hdo, Hread, Hdec. reflexivity.
  - intros [req [Hreq Hdo]] a err Hdec.
    unfold fetchFromBrasilAPI. rewrite Hreq, Hdo, Hread, Hdec.
    destruct (Z.eqb_spec (http.StatusCode resp) http.StatusOK) as [E|E]; simpl.
    + split; [ eexists; reflexivity | intros _; reflexivity ].
    + split; [ eexists; reflexivity | intros E'; contradiction ].
Qed.

Lemma decode_failure_is_an_error_witness :
  io.ReadAll (complete "<html>Bad Request</html>") =
    ("<html>Bad Request</html>", None) /\
  fetchFromViaCep not_json race_ctx "01001000" =
    (AddressViaCep_zero,
     Some (errorString
             "error reading response: invalid character '<' looking for beginning of value")) /\
  fetchFromBrasilAPI not_json race_ctx "01001000" =
    (AddressBrasil_zero,
     Some (errorString
             "error reading response: invalid character '<' looking for beginning of value")).
Proof.
  destruct (decode_failure_is_an_error not_json race_ctx "01001000"
              {| http.StatusCode := 200; http.Status := "200 OK";
                 http.Body := complete "<html>Bad Request</html>" |}
              "<html>Bad Request</html>" eq_refl) as [HV HB].
  split; [ reflexivity | split ].
  - apply (HV (answers_answered _ _ _ _ _) AddressViaCep_zero
             (errorString
                "invalid character '<' looking for beginning of value")).
    vm_compute. reflexivity.
  - apply (HB (answers_answered _ _ _ _ _) AddressBrasil_zero
             (errorString
                "invalid character '<' looking for beginning of value"));
      [ vm_compute; reflexivity | reflexivity ].
Defined.

(** C10.  When ViaCep answers, with whatever status, a body that is a
    JSON object none of whose keys selects an address field, or the JSON
    value [null], [fetchFromViaCep] returns the zero address and no error,
    and the handler answers that message with 200, [Content-Type:
    application/json] and the envelope whose address fields are all
    empty. *)
Theorem unknown_cep_is_an_empty_success net ctx cep resp body v :
  answered net ctx ("https://viacep.com.br/ws/" +:+ cep +:+ "/json/") resp ->
  io.ReadAll (http.Body resp) = (body, None) ->
  json.parse body = Some v ->
  object_or_null v ->
  no_ViaCep_field v ->
  fetchFromViaCep net ctx cep = (AddressViaCep_zero, None) /\
  let w := handleCEP_respond http.NewResponseWriter (goViaCep net ctx cep) in
  http.status w = Some http.StatusOK /\
  http.Header w !! "Content-Type" = Some "application/json" /\
  http.body w = [http.Encoded empty_envelope].
Proof.
  intros [req [Hreq Hdo]] Hread Hparse Hobj Hnone.
  assert (Hfetch : fetchFromViaCep net ctx cep = (AddressViaCep_zero, None)).
  { unfold fetchFromViaCep. rewrite Hreq, Hdo, Hread.
    unfold Unmarshal_AddressViaCep. rewrite (Unmarshal_parse _ _ _ _ _ _ Hparse).
    destruct v as [| | | | |members]; simpl in Hobj; try contradiction; simpl.
    - reflexivity.
    - rewrite object_no_field; [ reflexivity | ].
      eapply List.Forall_impl; [ | exact Hnone ].
      intros kv; apply find_field_ViaCep_none. }
  split; [ exact Hfetch | ].
  unfold goViaCep. rewrite Hfetch.
  split; [ reflexivity | split; reflexivity ].
Qed.

Lemma unknown_cep_is_an_empty_success_witness :
  json.parse (quoted "{'erro': true}") =
    Some (json.Object [("erro", json.Bool true)]) /\
  ~ names_ViaCep_field "erro" /\
  fetchFromViaCep unknown_cep race_ctx "99999999" = (AddressViaCep_zero, None) /\
  http.status (handleCEP_respond http.NewResponseWriter
                 (goViaCep unknown_cep race_ctx "99999999")) =
    Some http.StatusOK.
Proof.
  assert (H1 : json.parse (quoted "{'erro': true}") =
               Some (json.Object [("erro", json.Bool true)]))
    by (vm_compute; reflexivity).
  assert (H2 : ~ names_ViaCep_field "erro").
  { unfold names_ViaCep_field. vm_compute.
    intros [H|[H|[H|[H|[H|[]]]]]]; discriminate. }
  assert (H3 : no_ViaCep_field (json.Object [("erro", json.Bool true)]))
    by (constructor; [ exact H2 | constructor ]).
  destruct (unknown_cep_is_an_empty_success unknown_cep race_ctx "99999999"
              _ _ _ (answers_answered _ _ _ _ _) eq_refl H1 I H3)
    as [Hfetch [Hstatus _]].
  exact (conj H1 (conj H2 (conj Hfetch Hstatus))).
Defined.

(** The claim as it is worded, for every body that is valid JSON, fails
    on a body that is no object: the array [[]] is valid and holds no
    address field, and [json.Unmarshal] refuses to store an array in a
    struct, so the client returns an error and the handler answers 500. *)
Lemma array_body_is_an_error :
  let net := answers 200 "200 OK" (complete "[]") in
  json.parse "[]" = Some (json.Array []) /\
  no_ViaCep_field (json.Array []) /\
  fetchFromViaCep net race_ctx "99999999" =
    (AddressViaCep_zero,
     Some (errorString
             "error reading response: json: cannot unmarshal array into Go value of type main.AddressViaCep")) /\
  http.status (handleCEP_respond http.NewResponseWriter
                 (goViaCep net race_ctx "99999999")) =
    Some http.StatusInternalServerError.
Proof.
  intros net.
  split; [ vm_compute; reflexivity | ].
  split; [ exact I | ].
  split; vm_compute; reflexivity.
Qed.

(** * The scenarios of the specification, run *)

(** BrasilAPI returns 503 first and ViaCep would succeed later: 500. *)
Example scenario_failure_first :
  let s := after "/cep/01001000" failure_first in
  http.status (w s) = Some http.StatusInternalServerError /\
  http.body (w s) =
    [http.Text ("Erro: requisição falhou: 503 Service Unavailable"
                +:+ newline)] /\
  brasilapi s = Exited /\ viacep s = Exited /\ ctx_err s = Some context.Canceled.
Proof. repeat split; vm_compute; reflexivity. Qed.

(** Neither provider answers within the deadline: 408. *)
Example scenario_both_time_out :
  let s := after "/cep/01001000" both_time_out in
  http.status (w s) = Some http.StatusRequestTimeout /\
  http.body (w s) = [http.Text ("Erro: tempo de espera excedido" +:+ newline)] /\
  ctx_err s = Some context.DeadlineExceeded.
Proof. repeat split; vm_compute; reflexivity. Qed.

(** The malformed paths of the specification: 400 at the first step. *)
Example scenario_malformed_paths :
  handleCEP_cep "/cep/" = None /\ handleCEP_cep "/cep" = None /\
  handleCEP_cep "/cep/123/extra" = None /\
  handleCEP_cep "/cep/01001000" = Some "01001000" /\
  http.status (w (after "/cep/123/extra" [Handler])) =
    Some http.StatusBadRequest.
Proof. repeat split; vm_compute; reflexivity. Qed.

(** * Further properties of the code *)

(** ** The upstream clients (lines 38-97) *)

(** A success of a client, read backwards. *)
Lemma fetchFromViaCep_success net ctx cep a :
  fetchFromViaCep net ctx cep = (a, None) ->
  exists resp body,
    http.bad_url net (http.URL (request_ViaCep ctx cep)) = None /\
    http.Do net (request_ViaCep ctx cep) = inl resp /\
    io.ReadAll (http.Body resp) = (body, None) /\
    Unmarshal_AddressViaCep body AddressViaCep_zero = (a, None).
Proof.
  intros E.
  unfold fetchFromViaCep, http.NewRequestWithContext in E. cbv zeta in E.
  destruct (http.bad_url net _) eqn:Hurl in E; [ discriminate E | ].
  destruct (http.Do net _) as [resp|e] eqn:Hdo in E; [ | discriminate E ].
  destruct (io.ReadAll (http.Body resp)) as [body [e|]] eqn:Hread in E;
    [ discriminate E | ].
  destruct (Unmarshal_AddressViaCep body AddressViaCep_zero) as [a' [e|]]
    eqn:Hdec in E; [ discriminate E | ].
  inversion E; subst. exists resp, body. auto.
Qed.

Lemma fetchFromBrasilAPI_success net ctx cep a :
  fetchFromBrasilAPI net ctx cep = (a, None) ->
  exists resp body,
    http.bad_url net (http.URL (request_BrasilAPI ctx cep)) = None /\
    http.Do net (request_BrasilAPI ctx cep) = inl resp /\
    http.StatusCode resp = http.StatusOK /\
    io.ReadAll (http.Body resp) = (body, None) /\
    Unmarshal_AddressBrasil body AddressBrasil_zero = (a, None).
Proof.
  intros E.
  unfold fetchFromBrasilAPI, http.NewRequestWithContext in E. cbv zeta in E.
  destruct (http.bad_url net _) eqn:Hurl in E; [ discriminate E | ].
  destruct (http.Do net _) as [resp|e] eqn:Hdo in E; [ | discriminate E ].
  destruct (Z.eqb_spec (http.StatusCode resp) http.StatusOK) as [Hst|Hst];
    cbn [negb] in E; [ | discriminate E ].
  destruct (io.ReadAll (http.Body resp)) as [body [e|]] eqn:Hread in E;
    [ discriminate E | ].
  destruct (Unmarshal_AddressBrasil body AddressBrasil_zero) as [a' [e|]]
    eqn:Hdec in E; [ discriminate E | ].
  inversion E; subst. exists resp, body. auto.
Qed.

(** X1.  A client returns an address without error only if the URL was
    accepted, the one GET request to the provider's URL with the postal
    code in it was answered, the body was read to its end and
    [json.Unmarshal] gave that address without error; BrasilAPI's answer
    moreover had status 200. *)
Theorem success_comes_from_a_decoded_body net ctx cep :
  (forall a,
     fetchFromViaCep net ctx cep = (a, None) ->
     exists resp body,
       http.bad_url net (http.URL (request_ViaCep ctx cep)) = None /\
       http.Do net (request_ViaCep ctx cep) = inl resp /\
       io.ReadAll (http.Body resp) = (body, None) /\
       Unmarshal_AddressViaCep body AddressViaCep_zero = (a, None)) /\
  (forall a,
     fetchFromBrasilAPI net ctx cep = (a, None) ->
     exists resp body,
       http.bad_url net (http.URL (request_BrasilAPI ctx cep)) = None /\
       http.Do net (request_BrasilAPI ctx cep) = inl resp /\
       http.StatusCode resp = http.StatusOK /\
       io.ReadAll (http.Body resp) = (body, None) /\
       Unmarshal_AddressBrasil body AddressBrasil_zero = (a, None)).
Proof.
  split; intros a.
  - apply fetchFromViaCep_success.
  - apply fetchFromBrasilAPI_success.
Qed.

Lemma success_comes_from_a_decoded_body_witness :
  fetchFromViaCep Praca_da_Se_found race_ctx "01001000" = (Praca_da_Se, None) /\
  exists resp body,
    http.Do Praca_da_Se_found (request_ViaCep race_ctx "01001000") = inl resp /\
    io.ReadAll (http.Body resp) = (body, None) /\
    Unmarshal_AddressViaCep body AddressViaCep_zero = (Praca_da_Se, None).
Proof.
  assert (H : fetchFromViaCep Praca_da_Se_found race_ctx "01001000" =
              (Praca_da_Se, None)) by (vm_compute; reflexivity).
  refine (conj H _).
  destruct (proj1 (success_comes_from_a_decoded_body Praca_da_Se_found
                     race_ctx "01001000") _ H)
    as [resp [body [_ [Hdo [Hread Hdec]]]]].
  exists resp, body. auto.
Defined.

(** X2.  Whenever a client returns an error, the address it returns with
    it is the zero value: what [json.Unmarshal] had stored before it
    failed is not handed on. *)
Theorem error_returns_zero_address net ctx cep :
  (forall a err,
     fetchFromViaCep net ctx cep = (a, Some err) -> a = AddressViaCep_zero) /\
  (forall a err,
     fetchFromBrasilAPI net ctx cep = (a, Some err) -> a = AddressBrasil_zero).
Proof.
  split; intros a err.
  - unfold fetchFromViaCep.
    destruct (http.NewRequestWithContext _ _ _ _) as [req|e]; [ | congruence ].
    destruct (http.Do net req) as [resp|e]; [ | congruence ].
    destruct (io.ReadAll _) as [body [e|]]; [ congruence | ].
    destruct (Unmarshal_AddressViaCep _ _) as [a' [e|]]; congruence.
  - unfold fetchFromBrasilAPI.
    destruct (http.NewRequestWithContext _ _ _ _) as [req|e]; [ | congruence ].
    destruct (http.Do net req) as [resp|e]; [ | congruence ].
    destruct (negb _); [ congruence | ].
    destruct (io.ReadAll _) as [body [e|]]; [ congruence | ].
    destruct (Unmarshal_AddressBrasil _ _) as [a' [e|]]; congruence.
Qed.

(** A body whose first member is stored and whose second has the wrong
    type: the decoder had filled [Cep] when it failed. *)
Lemma error_returns_zero_address_witness :
  let net := answers 200 "200 OK" (complete (quoted "{'cep':'1','uf':2}")) in
  fst (Unmarshal_AddressViaCep (quoted "{'cep':'1','uf':2}") AddressViaCep_zero)
    <> AddressViaCep_zero /\
  snd (fetchFromViaCep net race_ctx "1") <> None /\
  fst (fetchFromViaCep net race_ctx "1") = AddressViaCep_zero.
Proof.
  intros net.
  split; [ vm_compute; discriminate | ].
  split; [ vm_compute; discriminate | ].
  destruct (fetchFromViaCep net race_ctx "1") as [a [err|]] eqn:E.
  - apply (proj1 (error_returns_zero_address net race_ctx "1") a err E).
  - vm_compute in E. discriminate E.
Defined.

(** ** The field that is never decoded *)

Lemma object_keeps {T} (proj : T -> string) struct
    (fields : list (json.field T)) members :
  (forall kv f s d, In kv members -> json.find_field fields (fst kv) = Some f ->
                    proj (json.store f s d) = proj d) ->
  forall dst saved,
    proj (fst (json.object struct fields members dst saved)) = proj dst.
Proof.
  induction members as [|[k v] rest IH]; intros Hkeep dst saved; simpl;
    [ reflexivity | ].
  assert (Hrest : forall kv f s d, In kv rest ->
            json.find_field fields (fst kv) = Some f ->
            proj (json.store f s d) = proj d)
    by (intros kv f s d Hin; apply Hkeep; right; exact Hin).
  destruct (json.find_field fields k) as [f|] eqn:Hf; [ | apply IH, Hrest ].
  destruct v; rewrite (IH Hrest); try reflexivity.
  apply (Hkeep (k, json.Str s)); [ left; reflexivity | exact Hf ].
Qed.

Lemma find_field_some {T} (fields : list (json.field T)) key f :
  json.find_field fields key = Some f ->
  In f fields /\ json.foldName (json.tag f) = json.foldName key.
Proof.
  unfold json.find_field. intros H.
  destruct (List.find _ fields) as [f'|] eqn:H1.
  - inversion H; subst. destruct (List.find_some _ _ H1) as [Hin E].
    apply String.eqb_eq in E. rewrite E. auto.
  - destruct (List.find_some _ _ H) as [Hin E].
    apply String.eqb_eq in E. auto.
Qed.

Lemma Unmarshal_keeps {T} (proj : T -> string) package struct
    (fields : list (json.field T)) data dst :
  (forall f s d, In f fields -> proj (json.store f s d) = proj d) ->
  proj (fst (json.Unmarshal package struct fields data dst)) = proj dst.
Proof.
  intros Hkeep. unfold json.Unmarshal.
  destruct (json.scan data) as [[| | | | |members]|e]; try reflexivity.
  apply object_keeps. intros kv f s d _ Hf.
  apply Hkeep, (find_field_some _ _ _ Hf).
Qed.

(** X3.  The field [Service] of an address that a client returns is
    always empty, whatever the body holds, a member named [service]
    included: no decoder entry writes it. *)
Theorem Service_is_never_filled net ctx cep :
  (forall a err, fetchFromViaCep net ctx cep = (a, err) -> v_Service a = "") /\
  (forall a err, fetchFromBrasilAPI net ctx cep = (a, err) -> b_Service a = "").
Proof.
  split; intros a [err|] E.
  - unfold fetchFromViaCep in E.
    destruct (http.NewRequestWithContext _ _ _ _) as [req|e];
      [ | inversion E; reflexivity ].
    destruct (http.Do net req) as [resp|e]; [ | inversion E; reflexivity ].
    destruct (io.ReadAll _) as [body [e|]]; [ inversion E; reflexivity | ].
    destruct (Unmarshal_AddressViaCep _ _) as [a' [e|]];
      inversion E; reflexivity.
  - destruct (fetchFromViaCep_success _ _ _ _ E)
      as [resp [body [_ [_ [_ Hdec]]]]].
    change (v_Service a) with (v_Service (fst (a, @None error))).
    rewrite <- Hdec. unfold Unmarshal_AddressViaCep.
    rewrite (Unmarshal_keeps v_Service); [ reflexivity | ].
    unfold AddressViaCep_fields; simpl.
    intros f s d Hin; intuition (subst; reflexivity).
  - unfold fetchFromBrasilAPI in E.
    destruct (http.NewRequestWithContext _ _ _ _) as [req|e];
      [ | inversion E; reflexivity ].
    destruct (http.Do net req) as [resp|e]; [ | inversion E; reflexivity ].
    destruct (negb _); [ inversion E; reflexivity | ].
    destruct (io.ReadAll _) as [body [e|]]; [ inversion E; reflexivity | ].
    destruct (Unmarshal_AddressBrasil _ _) as [a' [e|]];
      inversion E; reflexivity.
  - destruct (fetchFromBrasilAPI_success _ _ _ _ E)
      as [resp [body [_ [_ [_ [_ Hdec]]]]]].
    change (b_Service a) with (b_Service (fst (a, @None error))).
    rewrite <- Hdec. unfold Unmarshal_AddressBrasil.
    rewrite (Unmarshal_keeps b_Service); [ reflexivity | ].
    unfold AddressBrasil_fields; simpl.
    intros f s d Hin; intuition (subst; reflexivity).
Qed.

Lemma Service_is_never_filled_witness :
  fst (fetchFromBrasilAPI found_by_BrasilAPI race_ctx "01001000") <>
    AddressBrasil_zero /\
  b_Service (fst (fetchFromBrasilAPI found_by_BrasilAPI race_ctx "01001000"))
    = "".
Proof.
  split; [ vm_compute; discriminate | ].
  destruct (fetchFromBrasilAPI found_by_BrasilAPI race_ctx "01001000")
    as [a err] eqn:E.
  apply (proj2 (Service_is_never_filled found_by_BrasilAPI race_ctx "01001000")
           a err E).
Defined.

(** ** Which failures become a 408 *)

Lemma respond_failure_status result err :
  Err result = Some err ->
  http.status (handleCEP_respond http.NewResponseWriter result) =
    Some (if errors.Is err context.DeadlineExceeded
          then http.StatusRequestTimeout else http.StatusInternalServerError).
Proof.
  intros H. rewrite (handleCEP_respond_failure _ _ _ H).
  destruct (errors.Is err context.DeadlineExceeded);
    apply http_Error_status; reflexivity.
Qed.

(** X4.  The handler answers the message of a goroutine with 408 exactly
    when the request of that goroutine was built and [http.Client.Do]
    itself returned an error whose chain holds [context.DeadlineExceeded].
    No other outcome of a client gives a 408: not a refused URL, not a
    status, not an error while the body is read or decoded. *)
Theorem timeout_iff_Do_hit_the_deadline net ctx cep :
  (http.status (handleCEP_respond http.NewResponseWriter (goViaCep net ctx cep))
     = Some http.StatusRequestTimeout <->
   http.bad_url net (http.URL (request_ViaCep ctx cep)) = None /\
   exists err, http.Do net (request_ViaCep ctx cep) = inr err /\
               errors.Is err context.DeadlineExceeded = true) /\
  (http.status
     (handleCEP_respond http.NewResponseWriter (goBrasilAPI net ctx cep))
     = Some http.StatusRequestTimeout <->
   http.bad_url net (http.URL (request_BrasilAPI ctx cep)) = None /\
   exists err, http.Do net (request_BrasilAPI ctx cep) = inr err /\
               errors.Is err context.DeadlineExceeded = true).
Proof.
  split.
  - unfold goViaCep, fetchFromViaCep, http.NewRequestWithContext,
      request_ViaCep.
    cbv zeta. cbn [http.URL].
    destruct (http.bad_url net _) as [e|] eqn:Hurl.
    { split; [ intros H; discriminate H | intros [H _]; discriminate H ]. }
    destruct (http.Do net _) as [resp|e] eqn:Hdo.
    + split; [ | intros [_ [err [H _]]]; discriminate H ].
      destruct (io.ReadAll (http.Body resp)) as [body [e|]];
        [ intros H; discriminate H | ].
      destruct (Unmarshal_AddressViaCep body AddressViaCep_zero) as [a [e|]];
        intros H; discriminate H.
    + cbv beta iota. erewrite respond_failure_status by reflexivity.
      destruct (errors.Is e context.DeadlineExceeded) eqn:His; split.
      * intros _. split; [ reflexivity | exists e; auto ].
      * reflexivity.
      * intros H; discriminate H.
      * intros [_ [err [H1 H2]]]. inversion H1; subst. congruence.
  - unfold goBrasilAPI, fetchFromBrasilAPI, http.NewRequestWithContext,
      request_BrasilAPI.
    cbv zeta. cbn [http.URL].
    destruct (http.bad_url net _) as [e|] eqn:Hurl.
    { split; [ intros H; discriminate H | intros [H _]; discriminate H ]. }
    destruct (http.Do net _) as [resp|e] eqn:Hdo.
    + split; [ | intros [_ [err [H _]]]; discriminate H ].
      destruct (negb (http.StatusCode resp =? http.StatusOK));
        [ intros H; discriminate H | ].
      destruct (io.ReadAll (http.Body resp)) as [body [e|]];
        [ intros H; discriminate H | ].
      destruct (Unmarshal_AddressBrasil body AddressBrasil_zero) as [a [e|]];
        intros H; discriminate H.
    + cbv beta iota. erewrite respond_failure_status by reflexivity.
      destruct (errors.Is e context.DeadlineExceeded) eqn:His; split.
      * intros _. split; [ reflexivity | exists e; auto ].
      * reflexivity.
      * intros H; discriminate H.
      * intros [_ [err [H1 H2]]]. inversion H1; subst. congruence.
Qed.

(** ** The statuses BrasilAPI's client accepts *)

(** X5.  For every answer of BrasilAPI whose status is not 200, another
    status of the 2xx class included, the client returns the zero address
    and the error [requisição falhou:] with the status line, whatever the
    body is, and the handler answers that message with 500 and that
    text. *)
Theorem BrasilAPI_accepts_only_200 net ctx cep resp :
  answered net ctx ("https://brasilapi.com.br/api/cep/v1/" +:+ cep) resp ->
  http.StatusCode resp <> http.StatusOK ->
  fetchFromBrasilAPI net ctx cep =
    (AddressBrasil_zero,
     Some (errorString ("requisição falhou: " +:+ http.Status resp))) /\
  let w :=
    handleCEP_respond http.NewResponseWriter (goBrasilAPI net ctx cep) in
  http.status w = Some http.StatusInternalServerError /\
  http.body w =
    [http.Text ("Erro: requisição falhou: " +:+ http.Status resp +:+ newline)].
Proof.
  intros Hans Hst.
  pose proof (fetchFromBrasilAPI_status _ _ _ _ Hans Hst) as E.
  split; [ exact E | ]. unfold goBrasilAPI. rewrite E.
  split; reflexivity.
Qed.

Lemma BrasilAPI_accepts_only_200_witness :
  http.StatusCode
    {| http.StatusCode := 204; http.Status := "204 No Content";
       http.Body := complete "{}" |} <> http.StatusOK /\
  fetchFromBrasilAPI no_content race_ctx "01001000" =
    (AddressBrasil_zero,
     Some (errorString "requisição falhou: 204 No Content")) /\
  fetchFromViaCep no_content race_ctx "01001000" = (AddressViaCep_zero, None).
Proof.
  assert (H : http.StatusCode
                {| http.StatusCode := 204; http.Status := "204 No Content";
                   http.Body := complete "{}" |} <> http.StatusOK)
    by (vm_compute; discriminate).
  refine (conj H (conj _ _)).
  - apply (BrasilAPI_accepts_only_200 no_content race_ctx "01001000" _
             (answers_answered _ _ _ _ _) H).
  - vm_compute. reflexivity.
Defined.

(** ** What is decoded is encoded back *)

(** A well-formed encoding is recognised by its own bytes, whatever comes
    after them. *)
Lemma size_copy c rest k :
  utf8.size (String c rest) = S k ->
  exists pre tail,
    rest = pre +:+ tail /\ String.length pre = k /\
    forall tail', utf8.size (String c (pre +:+ tail')) = S k.
Proof.
  unfold utf8.size. cbv zeta.
  destruct (code c <? 128)%N eqn:E1.
  { intros H; inversion H; subst. exists "", rest. repeat split. }
  destruct (code c <? 194)%N eqn:E2; [ discriminate | ].
  destruct (code c <? 224)%N eqn:E3.
  { destruct rest as [|b1 r]; [ discriminate | ].
    destruct (in_range 128 191 b1) eqn:Eb1; [ | discriminate ].
    intros H; inversion H; subst. exists (String b1 ""), r.
    repeat split. intros tail'. simpl. rewrite Eb1. reflexivity. }
  destruct (code c <? 240)%N eqn:E4.
  { destruct rest as [|b1 [|b2 r]]; try discriminate.
    destruct (in_range _ _ b1 && in_range 128 191 b2) eqn:Eb; [ | discriminate ].
    intros H; inversion H; subst. exists (String b1 (String b2 "")), r.
    repeat split. intros tail'. simpl. rewrite Eb. reflexivity. }
  destruct (code c <? 245)%N eqn:E5; [ | discriminate ].
  destruct rest as [|b1 [|b2 [|b3 r]]]; try discriminate.
  destruct (in_range _ _ b1 && in_range 128 191 b2 && in_range 128 191 b3)
    eqn:Eb; [ | discriminate ].
  intros H; inversion H; subst. exists (String b1 (String b2 (String b3 ""))), r.
  repeat split. intros tail'. simpl. rewrite Eb. reflexivity.
Qed.

Lemma replace_from_copy pre tail :
  utf8.replace_from (String.length pre) (pre +:+ tail) =
    pre +:+ utf8.replace_from 0 tail.
Proof.
  induction pre as [|c pre IH]; [ reflexivity | ].
  simpl. rewrite IH. reflexivity.
Qed.

Lemma replace_from_head c rest :
  utf8.replace_from 0 (String c rest) =
    match utf8.size (String c rest) with
    | S k => String c (utf8.replace_from k rest)
    | O =>
        String "239" (String "191" (String "189" (utf8.replace_from 0 rest)))
    end.
Proof. reflexivity. Qed.

Lemma length_append_string a b :
  String.length (a +:+ b) = (String.length a + String.length b)%nat.
Proof.
  induction a as [|c a IH]; simpl; [ reflexivity | rewrite IH; reflexivity ].
Qed.

Lemma replace_twice_bounded n : forall s,
  (String.length s <= n)%nat ->
  utf8.replace_from 0 (utf8.replace_from 0 s) = utf8.replace_from 0 s.
Proof.
  induction n as [|n IH]; intros [|c rest] Hlen; try reflexivity;
    simpl in Hlen; [ lia | ].
  rewrite replace_from_head.
  destruct (utf8.size (String c rest)) as [|k] eqn:Hsize.
  - rewrite replace_from_head.
    change (utf8.size (String "239" (String "191" (String "189"
              (utf8.replace_from 0 rest))))) with 3%nat.
    cbn [utf8.replace_from]. rewrite IH by lia. reflexivity.
  - destruct (size_copy _ _ _ Hsize) as [pre [tail [-> [<- Hsame]]]].
    rewrite replace_from_copy, replace_from_head, Hsame, replace_from_copy.
    rewrite length_append_string in Hlen. rewrite IH by lia. reflexivity.
Qed.

(** Replacing the ill-formed bytes of a text leaves a text without any. *)
Lemma replace_ill_formed_twice s :
  utf8.replace_ill_formed (utf8.replace_ill_formed s) =
    utf8.replace_ill_formed s.
Proof. apply (replace_twice_bounded (String.length s)). lia. Qed.

Lemma Marshal_decoded_ViaCep a :
  Marshal_AddressViaCep (decoded_ViaCep a) = Marshal_AddressViaCep a.
Proof.
  unfold Marshal_AddressViaCep, Marshal_string, decoded_ViaCep; simpl.
  rewrite !replace_ill_formed_twice. reflexivity.
Qed.

Lemma Marshal_decoded_BrasilAPI a :
  Marshal_AddressBrasil (decoded_BrasilAPI a) = Marshal_AddressBrasil a.
Proof.
  unfold Marshal_AddressBrasil, Marshal_string, decoded_BrasilAPI; simpl.
  rewrite !replace_ill_formed_twice. reflexivity.
Qed.

Lemma Unmarshal_Marshal_AddressViaCep body a :
  json.parse body = Some (Marshal_AddressViaCep a) ->
  Unmarshal_AddressViaCep body AddressViaCep_zero = (decoded_ViaCep a, None).
Proof.
  intros Hp. unfold Unmarshal_AddressViaCep.
  rewrite (Unmarshal_parse _ _ _ _ _ _ Hp). reflexivity.
Qed.

Lemma Unmarshal_Marshal_AddressBrasil body a :
  json.parse body = Some (Marshal_AddressBrasil a) ->
  Unmarshal_AddressBrasil body AddressBrasil_zero = (decoded_BrasilAPI a, None).
Proof.
  intros Hp. unfold Unmarshal_AddressBrasil.
  rewrite (Unmarshal_parse _ _ _ _ _ _ Hp). reflexivity.
Qed.

(** X6.  When a provider answers with a JSON text of the value that an
    address [a] is encoded to, the client returns [a] as that value has
    it, every ill-formed byte replaced by U+FFFD and [Service] empty, and
    no error; and the handler's answer to that message carries under
    [data] the very value the provider sent: what was decoded (lines
    60-67, 89-95) is encoded back unchanged (lines 139-152), under the
    provider's own names. *)
Theorem address_round_trip net ctx cep resp body :
  io.ReadAll (http.Body resp) = (body, None) ->
  (forall a,
     answered net ctx ("https://viacep.com.br/ws/" +:+ cep +:+ "/json/") resp ->
     json.parse body = Some (Marshal_AddressViaCep a) ->
     fetchFromViaCep net ctx cep = (decoded_ViaCep a, None) /\
     http.body (handleCEP_respond http.NewResponseWriter
                  (goViaCep net ctx cep)) =
       [http.Encoded
          (json.Object [("origem", json.Str "viacep");
                        ("data", Marshal_AddressViaCep a)])]) /\
  (forall a,
     answered net ctx ("https://brasilapi.com.br/api/cep/v1/" +:+ cep) resp ->
     http.StatusCode resp = http.StatusOK ->
     json.parse body = Some (Marshal_AddressBrasil a) ->
     fetchFromBrasilAPI net ctx cep = (decoded_BrasilAPI a, None) /\
     http.body (handleCEP_respond http.NewResponseWriter
                  (goBrasilAPI net ctx cep)) =
       [http.Encoded
          (json.Object [("origem", json.Str "brasilapi");
                        ("data", Marshal_AddressBrasil a)])]).
Proof.
  intros Hread. split; intros a [req [Hreq Hdo]].
  - intros Hp.
    assert (E : fetchFromViaCep net ctx cep = (decoded_ViaCep a, None)).
    { unfold fetchFromViaCep.
      rewrite Hreq, Hdo, Hread, (Unmarshal_Marshal_AddressViaCep _ _ Hp).
      reflexivity. }
    split; [ exact E | ]. unfold goViaCep. rewrite E.
    unfold handleCEP_respond, Marshal_resultadoAPI, Marshal_any; simpl.
    rewrite Marshal_decoded_ViaCep. reflexivity.
  - intros Hst Hp.
    assert (E : fetchFromBrasilAPI net ctx cep = (decoded_BrasilAPI a, None)).
    { unfold fetchFromBrasilAPI.
      rewrite Hreq, Hdo, Hst, Hread, (Unmarshal_Marshal_AddressBrasil _ _ Hp).
      reflexivity. }
    split; [ exact E | ]. unfold goBrasilAPI. rewrite E.
    unfold handleCEP_respond, Marshal_resultadoAPI, Marshal_any; simpl.
    rewrite Marshal_decoded_BrasilAPI. reflexivity.
Qed.

Lemma address_round_trip_witness :
  json.parse Praca_da_Se_text = Some (Marshal_AddressViaCep Praca_da_Se) /\
  fetchFromViaCep Praca_da_Se_found race_ctx "01001000" = (Praca_da_Se, None).
Proof.
  assert (H : json.parse Praca_da_Se_text =
              Some (Marshal_AddressViaCep Praca_da_Se))
    by (vm_compute; reflexivity).
  refine (conj H _).
  apply (proj1 (address_round_trip Praca_da_Se_found race_ctx "01001000"
                  {| http.StatusCode := 200; http.Status := "200 OK";
                     http.Body := complete Praca_da_Se_text |}
                  Praca_da_Se_text eq_refl)
           Praca_da_Se (answers_answered _ _ _ _ _) H).
Defined.

(** A byte that is no UTF-8 comes back as U+FFFD. *)
Example ill_formed_byte_is_replaced :
  let body := quoted "{'uf': 'S" +:+ String "255" (quoted "P'}") in
  v_Uf (fst (fetchFromViaCep (answers 200 "200 OK" (complete body)) race_ctx
               "01001000")) =
    "S" +:+ String "239" (String "191" (String "189" "P")).
Proof. vm_compute. reflexivity. Qed.

(** ** A URL that is refused *)

(** X7.  When the URL with the postal code in it is refused as the
    request is built, the client returns [error creating request:] with
    the text of the cause and never calls [Do]: what the network would
    answer plays no part.  The handler answers that message with 500. *)
Theorem rejected_url_makes_no_call net ctx cep :
  (forall err round_trip,
     http.bad_url net (http.URL (request_ViaCep ctx cep)) = Some err ->
     let net' := {| http.bad_url := http.bad_url net;
                    http.round_trip := round_trip |} in
     fetchFromViaCep net' ctx cep =
       (AddressViaCep_zero,
        Some (errorString ("error creating request: " +:+ Error err))) /\
     http.status (handleCEP_respond http.NewResponseWriter
                    (goViaCep net' ctx cep)) =
       Some http.StatusInternalServerError) /\
  (forall err round_trip,
     http.bad_url net (http.URL (request_BrasilAPI ctx cep)) = Some err ->
     let net' := {| http.bad_url := http.bad_url net;
                    http.round_trip := round_trip |} in
     fetchFromBrasilAPI net' ctx cep =
       (AddressBrasil_zero,
        Some (errorString ("error creating request: " +:+ Error err))) /\
     http.status (handleCEP_respond http.NewResponseWriter
                    (goBrasilAPI net' ctx cep)) =
       Some http.StatusInternalServerError).
Proof.
  split; intros err rt Hurl net';
    cbn [http.URL request_ViaCep request_BrasilAPI] in Hurl.
  - assert (E : fetchFromViaCep net' ctx cep =
       (AddressViaCep_zero,
        Some (errorString ("error creating request: " +:+ Error err)))).
    { unfold fetchFromViaCep, http.NewRequestWithContext. cbv zeta.
      cbn [http.bad_url net']. rewrite Hurl. reflexivity. }
    split; [ exact E | ]. unfold goViaCep. rewrite E. reflexivity.
  - assert (E : fetchFromBrasilAPI net' ctx cep =
       (AddressBrasil_zero,
        Some (errorString ("error creating request: " +:+ Error err)))).
    { unfold fetchFromBrasilAPI, http.NewRequestWithContext. cbv zeta.
      cbn [http.bad_url net']. rewrite Hurl. reflexivity. }
    split; [ exact E | ]. unfold goBrasilAPI. rewrite E. reflexivity.
Qed.

(** The path [/cep/%0A], whose postal code is a line feed: *)
Lemma rejected_url_makes_no_call_witness :
  handleCEP_cep ("/cep/" +:+ newline) = Some newline /\
  http.bad_url refuses_control (http.URL (request_ViaCep race_ctx newline)) =
    Some (urlError "parse" ("https://viacep.com.br/ws/" +:+ newline +:+ "/json/")
            (errorString "net/url: invalid control character in URL")) /\
  fetchFromViaCep
    {| http.bad_url := http.bad_url refuses_control;
       http.round_trip := http.round_trip found_by_ViaCep |} race_ctx newline =
    (AddressViaCep_zero,
     Some (errorString
             ("error creating request: parse " +:+
              String dquote ("https://viacep.com.br/ws/\n/json/" +:+
              String dquote ": net/url: invalid control character in URL")))).
Proof.
  assert (H : http.bad_url refuses_control
                (http.URL (request_ViaCep race_ctx newline)) =
              Some (urlError "parse"
                      ("https://viacep.com.br/ws/" +:+ newline +:+ "/json/")
                      (errorString "net/url: invalid control character in URL")))
    by reflexivity.
  refine (conj eq_refl (conj H _)).
  apply (proj1 (rejected_url_makes_no_call refuses_control race_ctx newline) _
           (http.round_trip found_by_ViaCep) H).
Defined.

(** ** A member that is missing *)

Lemma ViaCep_store_other tag f s d :
  In f AddressViaCep_fields -> json.tag f <> tag ->
  ViaCep_field tag (json.store f s d) = ViaCep_field tag d.
Proof.
  unfold AddressViaCep_fields, ViaCep_field; simpl.
  intros [<-|[<-|[<-|[<-|[<-|[]]]]]] Hne; simpl in *;
    repeat match goal with
           | |- context [String.eqb tag ?t] =>
               destruct (String.eqb_spec tag t); subst; try congruence
           end.
Qed.

Lemma BrasilAPI_store_other tag f s d :
  In f AddressBrasil_fields -> json.tag f <> tag ->
  BrasilAPI_field tag (json.store f s d) = BrasilAPI_field tag d.
Proof.
  unfold AddressBrasil_fields, BrasilAPI_field; simpl.
  intros [<-|[<-|[<-|[<-|[<-|[]]]]]] Hne; simpl in *;
    repeat match goal with
           | |- context [String.eqb tag ?t] =>
               destruct (String.eqb_spec tag t); subst; try congruence
           end.
Qed.

Lemma ViaCep_field_zero tag : ViaCep_field tag AddressViaCep_zero = "".
Proof.
  unfold ViaCep_field; simpl. repeat destruct (String.eqb _ _); reflexivity.
Qed.

Lemma BrasilAPI_field_zero tag : BrasilAPI_field tag AddressBrasil_zero = "".
Proof.
  unfold BrasilAPI_field; simpl. repeat destruct (String.eqb _ _); reflexivity.
Qed.

(** X8.  When the body is a JSON object and no key of it is [tag] up to
    case, as [encoding/json] folds it, the field decoded under [tag] is
    empty in the address the client returns, whatever the other members
    are and whether or not decoding them fails: a missing member is no
    error and leaves its field empty. *)
Theorem missing_key_leaves_the_field_empty net ctx cep resp body members tag :
  io.ReadAll (http.Body resp) = (body, None) ->
  json.parse body = Some (json.Object members) ->
  (forall kv, In kv members -> json.foldName (fst kv) <> json.foldName tag) ->
  (answered net ctx ("https://viacep.com.br/ws/" +:+ cep +:+ "/json/") resp ->
   ViaCep_field tag (fst (fetchFromViaCep net ctx cep)) = "") /\
  (answered net ctx ("https://brasilapi.com.br/api/cep/v1/" +:+ cep) resp ->
   BrasilAPI_field tag (fst (fetchFromBrasilAPI net ctx cep)) = "").
Proof.
  intros Hread Hparse Hno. split; intros [req [Hreq Hdo]].
  - unfold fetchFromViaCep. rewrite Hreq, Hdo, Hread.
    destruct (Unmarshal_AddressViaCep body AddressViaCep_zero) as [a [e|]]
      eqn:Hdec; simpl; [ apply ViaCep_field_zero | ].
    change a with (fst (a, @None error)). rewrite <- Hdec.
    unfold Unmarshal_AddressViaCep.
    rewrite (Unmarshal_parse _ _ _ _ _ _ Hparse). simpl.
    rewrite (object_keeps (ViaCep_field tag));
      [ apply ViaCep_field_zero | ].
    intros kv f s d Hin Hf. destruct (find_field_some _ _ _ Hf) as [Hf1 Hf2].
    apply ViaCep_store_other; [ exact Hf1 | ].
    intros E. apply (Hno kv Hin). rewrite <- Hf2, E. reflexivity.
  - unfold fetchFromBrasilAPI. rewrite Hreq, Hdo, Hread.
    destruct (negb _); [ apply BrasilAPI_field_zero | ].
    destruct (Unmarshal_AddressBrasil body AddressBrasil_zero) as [a [e|]]
      eqn:Hdec; simpl; [ apply BrasilAPI_field_zero | ].
    change a with (fst (a, @None error)). rewrite <- Hdec.
    unfold Unmarshal_AddressBrasil.
    rewrite (Unmarshal_parse _ _ _ _ _ _ Hparse). simpl.
    rewrite (object_keeps (BrasilAPI_field tag));
      [ apply BrasilAPI_field_zero | ].
    intros kv f s d Hin Hf. destruct (find_field_some _ _ _ Hf) as [Hf1 Hf2].
    apply BrasilAPI_store_other; [ exact Hf1 | ].
    intros E. apply (Hno kv Hin). rewrite <- Hf2, E. reflexivity.
Qed.

(** BrasilAPI answers with [cep] and [CITY] and without [state]. *)
Lemma missing_key_leaves_the_field_empty_witness :
  json.parse no_state_text =
    Some (json.Object [("cep", json.Str "01001-000"); ("CITY", json.Str "SP")]) /\
  fetchFromBrasilAPI no_state race_ctx "01001000" =
    ({| b_Cep := "01001-000"; b_State := ""; b_City := "SP";
        b_Neighborhood := ""; b_Street := ""; b_Service := "" |}, None) /\
  BrasilAPI_field "state" (fst (fetchFromBrasilAPI no_state race_ctx "01001000"))
    = "".
Proof.
  assert (H : json.parse no_state_text =
              Some (json.Object
                      [("cep", json.Str "01001-000"); ("CITY", json.Str "SP")]))
    by (vm_compute; reflexivity).
  refine (conj H (conj _ _)); [ vm_compute; reflexivity | ].
  apply (proj2 (missing_key_leaves_the_field_empty no_state race_ctx "01001000"
                  {| http.StatusCode := 200; http.Status := "200 OK";
                     http.Body := complete no_state_text |}
                  no_state_text _ "state" eq_refl H
                  ltac:(intros kv [<-|[<-|[]]]; vm_compute; discriminate))
           (answers_answered _ _ _ _ _)).
Defined.

(** A key written with the long s, U+017F, is [state] up to case and
    fills the field; so does [uf] in capitals for ViaCep. *)
Example long_s_selects_state :
  json.foldName "ſtate" = json.foldName "state" /\
  b_State (fst (fetchFromBrasilAPI
                  (answers 200 "200 OK" (complete (quoted "{'ſtate': 'SP'}")))
                  race_ctx "01001000")) = "SP" /\
  v_Uf (fst (fetchFromViaCep
               (answers 200 "200 OK" (complete (quoted "{'UF': 'SP'}")))
               race_ctx "01001000")) = "SP".
Proof. repeat split; vm_compute; reflexivity. Qed.

(** ** The postal code (lines 100-105) *)

(** X9.  For a path [/a/b] with [a] and [b] free of slashes and [b] not
    empty, the guard passes and the postal code is [b] as it stands: the
    first segment is not compared with [cep] and the code is not checked
    for its form. *)
Theorem postal_code_is_the_second_segment a b :
  free_of "/"%char a -> free_of "/"%char b -> b <> "" ->
  handleCEP_cep (String "/"%char (a +:+ String "/"%char b)) = Some b.
Proof.
  intros Ha Hb Hne. unfold handleCEP_cep.
  change (String "/"%char (a +:+ String "/"%char b))
    with ("" +:+ String "/"%char (a +:+ String "/"%char b)).
  rewrite Split_free_prefix by (intros []).
  rewrite Split_free_prefix by exact Ha.
  rewrite Split_free_whole by exact Hb. simpl.
  destruct (String.eqb_spec b ""); [ contradiction | reflexivity ].
Qed.

Lemma postal_code_is_the_second_segment_witness :
  free_of "/"%char "other" /\ free_of "/"%char "not a code" /\
  "not a code" <> "" /\
  handleCEP_cep "/other/not a code" = Some "not a code".
Proof.
  assert (H1 : free_of "/"%char "other")
    by (vm_compute; intuition discriminate).
  assert (H2 : free_of "/"%char "not a code")
    by (vm_compute; intuition discriminate).
  assert (H3 : "not a code" <> "") by discriminate.
  refine (conj H1 (conj H2 (conj H3 _))).
  apply (postal_code_is_the_second_segment "other" "not a code" H1 H2 H3).
Defined.

(** ** The handler's answers to a message (lines 127-158) *)

(** X10.  For a message with an error the handler writes plain text with
    [nosniff]: when [errors.Is] finds the deadline error, 408 and the
    fixed text, which does not hold the text of the error; otherwise 500
    and [Erro: ] followed by the text of the error. *)
Theorem failure_response result err :
  Err result = Some err ->
  let w := handleCEP_respond http.NewResponseWriter result in
  http.Header w !! "Content-Type" = Some "text/plain; charset=utf-8" /\
  http.Header w !! "X-Content-Type-Options" = Some "nosniff" /\
  (errors.Is err context.DeadlineExceeded = true ->
   http.status w = Some http.StatusRequestTimeout /\
   http.body w = [http.Text ("Erro: tempo de espera excedido" +:+ newline)]) /\
  (errors.Is err context.DeadlineExceeded = false ->
   http.status w = Some http.StatusInternalServerError /\
   http.body w = [http.Text ("Erro: " +:+ Error err +:+ newline)]).
Proof.
  intros He w. subst w. rewrite (handleCEP_respond_failure _ _ _ He).
  destruct (errors.Is err context.DeadlineExceeded).
  - split; [ reflexivity | split; [ reflexivity | split ] ].
    + intros _. split; reflexivity.
    + intros H; discriminate H.
  - split; [ reflexivity | split; [ reflexivity | split ] ].
    + intros H; discriminate H.
    + intros _. split; reflexivity.
Qed.

Lemma failure_response_witness :
  let result := goViaCep (fails context.DeadlineExceeded) race_ctx "01001000" in
  Err result =
    Some (urlError "Get" "https://viacep.com.br/ws/01001000/json/"
            context.DeadlineExceeded) /\
  http.status (handleCEP_respond http.NewResponseWriter result) =
    Some http.StatusRequestTimeout.
Proof.
  intros result.
  assert (H : Err result =
              Some (urlError "Get" "https://viacep.com.br/ws/01001000/json/"
                      context.DeadlineExceeded)) by reflexivity.
  refine (conj H _).
  destruct (failure_response result _ H) as [_ [_ [H408 _]]].
  apply H408. reflexivity.
Defined.

(** X11.  For a message without error whose origin is neither [viacep]
    nor [brasilapi] the handler answers 500 with the text [Erro interno:
    tipo inesperado de resposta], as plain text: the JSON content type it
    had set is replaced. *)
Theorem unknown_origin_is_500 result :
  Err result = None ->
  Origem result <> "viacep" -> Origem result <> "brasilapi" ->
  let w := handleCEP_respond http.NewResponseWriter result in
  http.status w = Some http.StatusInternalServerError /\
  http.Header w !! "Content-Type" = Some "text/plain; charset=utf-8" /\
  http.body w =
    [http.Text ("Erro interno: tipo inesperado de resposta" +:+ newline)].
Proof.
  intros He Hv Hb w. subst w.
  rewrite (handleCEP_respond_default _ _ He Hv Hb).
  split; [ reflexivity | split; [ | reflexivity ] ].
  apply http_Error_content_type.
Qed.

Lemma unknown_origin_is_500_witness :
  let result := {| Origem := "ViaCep"; Data := anyAddressViaCep Praca_da_Se;
                   Err := None |} in
  Origem result <> "viacep" /\ Origem result <> "brasilapi" /\
  http.status (handleCEP_respond http.NewResponseWriter result) =
    Some http.StatusInternalServerError.
Proof.
  intros result.
  assert (H1 : Origem result <> "viacep") by discriminate.
  assert (H2 : Origem result <> "brasilapi") by discriminate.
  refine (conj H1 (conj H2 _)).
  apply (unknown_origin_is_500 result eq_refl H1 H2).
Defined.

(** ** One request, from its first step to its last *)

(** X12.  In every execution in which the handler has returned it has
    written a status and exactly one piece of body: 400 as plain text
    when the path was refused, and otherwise 200 with JSON, or 408 or 500
    as plain text.  The empty response of a failed type assertion does
    not occur, because the messages in the channel are those of the two
    goroutines. *)
Theorem every_completed_request_has_one_response path s rcv :
  reachable path s ->
  handler s = Returned rcv ->
  match handleCEP_cep path with
  | None => plain_text (w s) http.StatusBadRequest
  | Some _ =>
      json_ok (w s) \/ plain_text (w s) http.StatusRequestTimeout \/
      plain_text (w s) http.StatusInternalServerError
  end.
Proof.
  intros Hreach Hh. pose proof (invariant_reachable _ _ Hreach) as Hinv.
  pose proof (inv_path _ _ Hinv) as Hp. pose proof (inv_w _ _ Hinv) as Hw.
  rewrite Hh in Hp, Hw. rewrite Hw. destruct rcv as [m|]; simpl in *.
  - destruct (handleCEP_cep path); [ | contradiction ].
    destruct (received_message_is_first path s m Hinv) as [o [_ [_ Hup]]];
      [ rewrite Hh; reflexivity | ].
    apply (respond_from_upstream o m Hup).
  - rewrite Hp. apply http_Error_plain_text.
Qed.

Lemma every_completed_request_has_one_response_witness :
  let s := after "/cep/01001000" both_time_out in
  reachable "/cep/01001000" s /\
  handler s =
    Returned (Some (goViaCep (fails context.DeadlineExceeded) race_ctx
                      "01001000")) /\
  (json_ok (w s) \/ plain_text (w s) http.StatusRequestTimeout \/
   plain_text (w s) http.StatusInternalServerError).
Proof.
  intros s.
  assert (H1 : reachable "/cep/01001000" s)
    by (apply reachable_after; vm_compute; discriminate).
  assert (H2 : handler s =
               Returned (Some (goViaCep (fails context.DeadlineExceeded)
                                 race_ctx "01001000")))
    by (vm_compute; reflexivity).
  refine (conj H1 (conj H2 _)).
  apply (every_completed_request_has_one_response _ _ _ H1 H2).
Defined.

(** X13.  At the receive of line 125 the handler goes on exactly when a
    message has been delivered; while none has, it has no step, also when
    the deadline of the context has passed: the handler itself waits
    without a time limit, and it is the clients that end the wait. *)
Theorem receive_waits_for_a_delivery path s :
  reachable path s ->
  handler s = AtReceive ->
  (exec s Handler = None <-> delivered (log s) = []).
Proof.
  intros Hreach Hh. pose proof (invariant_reachable _ _ Hreach) as Hinv.
  pose proof (inv_chan _ _ Hinv) as Hch. rewrite Hh in Hch. simpl in Hch.
  destruct Hch as [q [Hch Hdel]]. rewrite Hdel.
  simpl. unfold step_handler. rewrite Hh, Hch.
  destruct q; split; intros H; try reflexivity; discriminate H.
Qed.

Lemma receive_waits_for_a_delivery_witness :
  let s := after "/cep/01001000" nobody_answers in
  reachable "/cep/01001000" s /\ handler s = AtReceive /\
  ctx_err s = Some context.DeadlineExceeded /\
  delivered (log s) = [] /\ exec s Handler = None.
Proof.
  intros s.
  assert (H1 : reachable "/cep/01001000" s)
    by (apply reachable_after; vm_compute; discriminate).
  assert (H2 : handler s = AtReceive) by (vm_compute; reflexivity).
  assert (H3 : ctx_err s = Some context.DeadlineExceeded)
    by (vm_compute; reflexivity).
  assert (H4 : delivered (log s) = []) by (vm_compute; reflexivity).
  refine (conj H1 (conj H2 (conj H3 (conj H4 _)))).
  apply (proj2 (receive_waits_for_a_delivery _ _ H1 H2) H4).
Defined.

(** X14.  No execution has more than two runs of an upstream client;
    when everything has finished there were exactly two for a raced
    request, one for each provider (the loser's call is made too), and
    none for a refused path.  Nothing is retried. *)
Theorem two_upstream_calls path s :
  reachable path s ->
  (fetches (log s) <= 2)%nat /\
  (finished s ->
   fetches (log s) = match handleCEP_cep path with
                     | Some _ => 2%nat
                     | None => 0%nat
                     end).
Proof.
  intros Hreach. pose proof (invariant_reachable _ _ Hreach) as Hinv.
  pose proof (inv_fetches _ _ Hinv) as Hf. rewrite Hf. split.
  - destruct (brasilapi s), (viacep s); simpl; lia.
  - intros [[rcv Hh] [Hb Hv]].
    pose proof (inv_path _ _ Hinv) as Hp.
    pose proof (inv_started _ _ Hinv BrasilAPI) as HsB.
    pose proof (inv_started _ _ Hinv ViaCep) as HsV.
    rewrite Hh in *. simpl in *.
    destruct rcv as [m|]; simpl in *.
    + destruct (handleCEP_cep path); [ | contradiction ].
      destruct Hb as [Hb|Hb], Hv as [Hv|Hv]; rewrite Hb, Hv; simpl;
        try reflexivity;
        first [ apply HsB in Hb; discriminate Hb
              | apply HsV in Hv; discriminate Hv ].
    + rewrite Hp.
      rewrite (proj2 HsB eq_refl), (proj2 HsV eq_refl). reflexivity.
Qed.

Lemma two_upstream_calls_witness :
  let s := after "/cep/01001000" failure_first in
  reachable "/cep/01001000" s /\ finished s /\ fetches (log s) = 2%nat.
Proof.
  intros s.
  assert (H1 : reachable "/cep/01001000" s)
    by (apply reachable_after; vm_compute; discriminate).
  assert (H2 : finished s).
  { split; [ eexists; vm_compute; reflexivity | ].
    split; right; vm_compute; reflexivity. }
  refine (conj H1 (conj H2 _)).
  apply (proj2 (two_upstream_calls _ _ H1) H2).
Defined.

(** X15.  The message the handler holds after the receive was delivered
    by a goroutine that has exited, and is the only message of that
    goroutine: the handler never answers from a client that is still
    running. *)
Theorem winner_has_exited path s m :
  reachable path s ->
  taken (handler s) = [m] ->
  exists o, goroutine_of o s = Exited /\ delivered_by o (log s) = [m].
Proof.
  intros Hreach Ht. pose proof (invariant_reachable _ _ Hreach) as Hinv.
  destruct (received_message_is_first _ _ _ Hinv Ht) as [o [rest [Hd _]]].
  exists o. destruct (delivered_by_bound path s o Hinv) as [Hle Hiff].
  assert (Hby : exists more, delivered_by o (log s) = m :: more).
  { unfold delivered_by. rewrite Hd. simpl. rewrite origin_eqb_refl.
    simpl. eauto. }
  destruct Hby as [more Hby]. rewrite Hby in *.
  destruct more; simpl in Hle; [ | lia ].
  split; [ apply Hiff; reflexivity | reflexivity ].
Qed.

Lemma winner_has_exited_witness :
  let s := after "/cep/01001000" loser_pending in
  let m := goBrasilAPI unavailable race_ctx "01001000" in
  reachable "/cep/01001000" s /\ taken (handler s) = [m] /\
  viacep s <> Exited /\
  exists o, goroutine_of o s = Exited /\ delivered_by o (log s) = [m].
Proof.
  intros s m.
  assert (H1 : reachable "/cep/01001000" s)
    by (apply reachable_after; vm_compute; discriminate).
  assert (H2 : taken (handler s) = [m]) by (vm_compute; reflexivity).
  assert (H3 : viacep s <> Exited) by (vm_compute; discriminate).
  refine (conj H1 (conj H2 (conj H3 _))).
  apply (winner_has_exited _ _ _ H1 H2).
Defined.

(** ** The postal code that reaches the providers *)

(** The client of a goroutine consults the network for one request only,
    the one for its postal code. *)
Lemma message_same_answer o net net' c cep :
  same_answer net net' (request_of o c cep) ->
  message o net c cep = message o net' c cep.
Proof.
  intros [Hurl Hdo].
  destruct o; simpl in *;
    [ unfold goBrasilAPI, fetchFromBrasilAPI | unfold goViaCep, fetchFromViaCep ];
    unfold http.NewRequestWithContext, http.Do; cbv zeta;
    rewrite <- Hurl; destruct (http.bad_url net _); try reflexivity;
    [ change {| http.Ctx := c; http.Method := "GET";
                http.URL := "https://brasilapi.com.br/api/cep/v1/" +:+ cep |}
        with (request_BrasilAPI c cep)
    | change {| http.Ctx := c; http.Method := "GET";
                http.URL := "https://viacep.com.br/ws/" +:+ cep +:+ "/json/" |}
        with (request_ViaCep c cep) ];
    rewrite <- Hdo; reflexivity.
Qed.

Lemma never_ran_snoc schedule l o :
  never_ran schedule o -> (forall net, l <> Fetch o net) ->
  never_ran (schedule ++ [l]) o.
Proof.
  intros Hno Hl net Hin. apply in_app_or in Hin.
  destruct Hin as [Hin|[E|[]]]; [ exact (Hno net Hin) | exact (Hl net E) ].
Qed.

Lemma ran_once_snoc schedule l o net :
  ran_once schedule o net -> (forall net', l <> Fetch o net') ->
  ran_once (schedule ++ [l]) o net.
Proof.
  intros [Hin Hone] Hl. split; [ apply in_or_app; left; exact Hin | ].
  intros net' Hin'. apply in_app_or in Hin'.
  destruct Hin' as [Hin'|[E|[]]]; [ exact (Hone net' Hin') | ].
  exfalso; exact (Hl net' E).
Qed.

Lemma ran_once_first schedule o net :
  never_ran schedule o -> ran_once (schedule ++ [Fetch o net]) o net.
Proof.
  intros Hno. split; [ apply in_or_app; right; left; reflexivity | ].
  intros net' Hin. apply in_app_or in Hin.
  destruct Hin as [Hin|[E|[]]]; [ exfalso; exact (Hno net' Hin) | ].
  inversion E; reflexivity.
Qed.

Lemma asked_for_snoc path schedule l o m :
  asked_for path schedule o m -> (forall net, l <> Fetch o net) ->
  asked_for path (schedule ++ [l]) o m.
Proof.
  intros [cep [net [Hcep [Hran Hm]]]] Hl.
  exists cep, net. eauto using ran_once_snoc.
Qed.

Lemma goroutine_for_snoc path schedule l o g :
  goroutine_for path schedule o g -> (forall net, l <> Fetch o net) ->
  goroutine_for path (schedule ++ [l]) o g.
Proof.
  destruct g; simpl; intros H Hl;
    intuition eauto using never_ran_snoc, asked_for_snoc.
Qed.

Lemma deliveries_snoc path schedule l ds :
  Forall (fun d => asked_for path schedule (fst d) (snd d)) ds ->
  (forall d net, In d ds -> l <> Fetch (fst d) net) ->
  Forall (fun d : origin * resultadoAPI =>
            asked_for path (schedule ++ [l]) (fst d) (snd d)) ds.
Proof.
  intros H Hl. rewrite List.Forall_forall in *.
  intros d Hin. apply asked_for_snoc; [ exact (H d Hin) | ].
  intros net. exact (Hl d net Hin).
Qed.

Lemma delivered_by_none o l d :
  delivered_by o l = [] -> In d (deliveries l) -> fst d <> o.
Proof.
  unfold delivered_by. intros Hnone Hin E. subst o.
  assert (Hf : In d (List.filter (fun d' => origin_eqb (fst d) (fst d'))
                       (deliveries l)))
    by (apply List.filter_In; split; [ exact Hin | apply origin_eqb_refl ]).
  apply (in_map snd) in Hf. rewrite Hnone in Hf. exact Hf.
Qed.

Definition origin_eq_dec (a b : origin) : {a = b} + {a <> b}.
Proof. decide equality. Defined.

Lemma carries_cep_init path : carries_cep path [] (init path).
Proof.
  constructor; simpl.
  - intros c H; discriminate H.
  - intros [] net [].
  - constructor.
Qed.

(** A step that is no run of a client keeps what is known of the
    goroutines and of the deliveries. *)
Lemma carries_cep_keep path schedule l s :
  carries_cep path schedule s ->
  (forall o net, l <> Fetch o net) ->
  (forall o, goroutine_for path (schedule ++ [l]) o (goroutine_of o s)) /\
  Forall (fun d => asked_for path (schedule ++ [l]) (fst d) (snd d))
    (deliveries (log s)).
Proof.
  intros [_ Hg Hd] Hl. split.
  - intros o. apply goroutine_for_snoc; [ apply Hg | apply Hl ].
  - apply deliveries_snoc; [ exact Hd | ]. intros d net _. apply Hl.
Qed.

Lemma carries_cep_handler path schedule s s' :
  invariant path s -> carries_cep path schedule s ->
  step_handler s = Some s' ->
  carries_cep path (schedule ++ [Handler]) s'.
Proof.
  intros Hinv Hcc Hstep.
  destruct (carries_cep_keep path schedule Handler s Hcc) as [Hg Hd];
    [ discriminate | ].
  pose proof (cc_pc _ _ _ Hcc) as Hpc.
  pose proof (inv_path _ _ Hinv) as Hpath.
  pose proof (Hg BrasilAPI) as HgB. pose proof (Hg ViaCep) as HgV.
  pose proof (proj2 (inv_started _ _ Hinv BrasilAPI)) as HsB.
  pose proof (proj2 (inv_started _ _ Hinv ViaCep)) as HsV.
  destruct s as [h w0 c ce ch gb gv lg]; simpl in *.
  unfold step_handler, cancel in Hstep; simpl in Hstep.
  destruct h; simpl in *;
    repeat match type of Hstep with
           | context [match ?x with _ => _ end] => destruct x eqn:?
           end;
    inversion Hstep; subst; clear Hstep;
    (constructor; simpl; rewrite ?app_nil_r, ?deliveries_app, ?app_nil_r;
     [ intros c' Hc'; inversion Hc'; subst; auto; try congruence
     | intros []; simpl; auto
     | simpl; rewrite ?app_nil_r; auto ]).
  - rewrite (HsB eq_refl) in HgB. simpl in HgB. auto.
  - rewrite (HsV eq_refl) in HgV. simpl in HgV. auto.
Qed.

Lemma carries_cep_fetch path schedule o net s s' :
  invariant path s -> carries_cep path schedule s ->
  step_fetch o net s = Some s' ->
  carries_cep path (schedule ++ [Fetch o net]) s'.
Proof.
  intros Hinv [Hpc Hg Hd] Hstep.
  pose proof (inv_ctx _ _ Hinv) as Hctx.
  pose proof (inv_goroutine _ _ Hinv o) as Hok.
  pose proof (Hg o) as Hgo.
  unfold step_fetch in Hstep.
  destruct (goroutine_of o s) as [|cep|m|] eqn:Ego; try discriminate Hstep.
  destruct (ctx s) as [c|] eqn:Ec; [ | discriminate Hstep ].
  inversion Hstep; subst s'; clear Hstep.
  assert (Hc : c = context.WithTimeout (1 * time.Second))
    by (destruct (has_ctx (handler s)); congruence).
  subst c. simpl in Hgo, Hok. destruct Hgo as [Hcep Hnever].
  constructor; simpl.
  - exact Hpc.
  - intros o'. destruct (origin_eq_dec o o') as [<-|Hne].
    + replace (goroutine_of o _)
        with (Sending (message o net (context.WithTimeout (1 * time.Second))
                         cep)) by (destruct o; reflexivity).
      exists cep, net. split; [ exact Hcep | ].
      split; [ apply ran_once_first; exact Hnever | reflexivity ].
    + replace (goroutine_of o' _) with (goroutine_of o' s)
        by (destruct o, o'; try reflexivity; contradiction).
      apply goroutine_for_snoc; [ apply Hg | ].
      intros net' E. inversion E. contradiction.
  - rewrite deliveries_app, app_nil_r.
    apply deliveries_snoc; [ exact Hd | ].
    intros d net' Hin E. inversion E; subst.
    exact (delivered_by_none _ _ _ Hok Hin eq_refl).
Qed.

Lemma carries_cep_send path schedule o s s' :
  carries_cep path schedule s ->
  step_send o s = Some s' ->
  carries_cep path (schedule ++ [Send o]) s'.
Proof.
  intros Hcc Hstep.
  destruct (carries_cep_keep path schedule (Send o) s Hcc) as [Hg Hd];
    [ discriminate | ].
  pose proof (cc_pc _ _ _ Hcc) as Hpc. pose proof (Hg o) as Hgo.
  unfold step_send in Hstep.
  destruct (goroutine_of o s) as [|cep|m|] eqn:Ego; try discriminate Hstep.
  destruct (resChan s) as [ch|]; [ | discriminate Hstep ].
  destruct (_ <? _)%nat; [ | discriminate Hstep ].
  inversion Hstep; subst s'; clear Hstep. simpl in Hgo.
  constructor; simpl.
  - exact Hpc.
  - intros o'. specialize (Hg o').
    destruct o, o'; simpl in *; auto.
  - rewrite deliveries_app. apply Forall_app. split; [ exact Hd | ].
    constructor; [ exact Hgo | constructor ].
Qed.

Lemma carries_cep_expire path schedule s s' :
  carries_cep path schedule s ->
  step_expire s = Some s' ->
  carries_cep path (schedule ++ [Expire]) s'.
Proof.
  intros Hcc Hstep.
  destruct (carries_cep_keep path schedule Expire s Hcc) as [Hg Hd];
    [ discriminate | ].
  pose proof (cc_pc _ _ _ Hcc) as Hpc.
  unfold step_expire in Hstep.
  destruct (ctx s); [ | discriminate Hstep ].
  destruct (ctx_err s); [ discriminate Hstep | ].
  inversion Hstep; subst s'; clear Hstep.
  constructor; simpl; rewrite ?deliveries_app, ?app_nil_r; auto.
Qed.

Lemma carries_cep_exec path schedule s l s' :
  invariant path s -> carries_cep path schedule s -> exec s l = Some s' ->
  carries_cep path (schedule ++ [l]) s'.
Proof.
  destruct l; simpl;
    eauto using carries_cep_handler, carries_cep_fetch, carries_cep_send,
      carries_cep_expire.
Qed.

Lemma carries_cep_run path schedule : forall s,
  run (init path) schedule = Some s -> carries_cep path schedule s.
Proof.
  induction schedule as [|l schedule IH] using rev_ind; intros s Hrun.
  - inversion Hrun; subst. apply carries_cep_init.
  - rewrite run_app in Hrun.
    destruct (run (init path) schedule) as [s1|] eqn:E; [ | discriminate Hrun ].
    simpl in Hrun. destruct (exec s1 l) as [s2|] eqn:El; [ | discriminate Hrun ].
    inversion Hrun; subst s2.
    apply (carries_cep_exec path schedule s1 l s); auto.
    apply invariant_reachable. exists schedule. exact E.
Qed.

(** X16.  In every execution, a message that the goroutine of provider
    [o] delivered to the channel is what the client of [o] returned for
    the postal code the handler took from the path, under the context of
    one second, against the network that the one run of that client in
    this execution met.  The client consults that network for one request
    only, the GET for that postal code: every network that treats this
    request alike gives the same message.  So both providers are asked
    for the same code, the one of the request, and for nothing else. *)
Theorem every_message_is_for_the_postal_code path schedule s o m :
  run (init path) schedule = Some s ->
  In (o, m) (deliveries (log s)) ->
  exists cep net,
    handleCEP_cep path = Some cep /\
    ran_once schedule o net /\
    forall net',
      same_answer net net'
        (request_of o (context.WithTimeout (1 * time.Second)) cep) ->
      m = message o net' (context.WithTimeout (1 * time.Second)) cep.
Proof.
  intros Hrun Hin.
  pose proof (cc_deliveries _ _ _ (carries_cep_run _ _ _ Hrun)) as Hd.
  rewrite List.Forall_forall in Hd.
  destruct (Hd _ Hin) as [cep [net [Hcep [Hran Hm]]]]. simpl in *.
  exists cep, net. split; [ exact Hcep | split; [ exact Hran | ] ].
  intros net' Hsame. rewrite Hm. apply message_same_answer, Hsame.
Qed.

Lemma every_message_is_for_the_postal_code_witness :
  let s := after "/cep/01001000" ViaCep_first in
  let m := goViaCep found_by_ViaCep race_ctx "01001000" in
  run (init "/cep/01001000") ViaCep_first = Some s /\
  In (ViaCep, m) (deliveries (log s)) /\
  exists cep net,
    handleCEP_cep "/cep/01001000" = Some cep /\
    ran_once ViaCep_first ViaCep net /\
    m = goViaCep net race_ctx cep.
Proof.
  intros s m.
  assert (H1 : run (init "/cep/01001000") ViaCep_first = Some s)
    by (vm_compute; reflexivity).
  assert (H2 : In (ViaCep, m) (deliveries (log s)))
    by (vm_compute; left; reflexivity).
  refine (conj H1 (conj H2 _)).
  destruct (every_message_is_for_the_postal_code _ _ _ _ _ H1 H2)
    as [cep [net [Hcep [Hran Hm]]]].
  exists cep, net. split; [ exact Hcep | split; [ exact Hran | ] ].
  apply (Hm net). split; reflexivity.
Defined.
